(** * rest_auth/views.py: a shallow embedding of the REST authentication views

    The views of [rest_auth/views.py] are thin: each one validates the
    request through a serializer, calls into the framework (token table,
    session framework, password reset form) and maps the result to an HTTP
    response.  The embedding below keeps that shape.  The process-wide state
    the views act on is gathered in a record [World]; view methods are
    computations in a state-and-exception monad [M], so that Python's
    [try: ... except: pass] and the propagation of uncaught exceptions are
    both written the way the source has them. *)

From stdpp Require Import base strings list gmap pretty.
From Stdlib Require Import Lia.

Set Default Proof Using "Type".
Open Scope string_scope.

(** ** Data *)

(** [request.DATA]: the parsed body of the request. *)
Definition Data := list (string * string).

(** [serializer.errors]: messages collected per field. *)
Definition Errors := list (string * list string).

(** A row of the user table (owned by the framework): primary key, e-mail
    address and the [is_active] flag. *)
Record User := mkUser { pk : nat; email : string; is_active : bool }.

(** A row of [rest_framework.authtoken.models.Token]: [key] is the primary
    key of the table, [user_id] the one-to-one link to the owner. *)
Record Token := mkToken { key : string; user_id : nat }.

#[global] Instance User_eq_dec : EqDecision User.
Proof. solve_decision. Defined.
#[global] Instance Token_eq_dec : EqDecision Token.
Proof. solve_decision. Defined.

(** Exceptions the embedded code raises or lets through.  [StoreError]
    stands for a failure confined to the token table; it carries the message
    so that statements can range over all of them.  [OperationalError] is the
    database itself being unreachable: then every table fails, the session
    table included.  [SMTPException] is a failure of mail delivery. *)
Inductive Exn :=
| DoesNotExist
| MultipleObjectsReturned
| IntegrityError
| AttributeError
| InvalidToken
| StoreError (msg : string)
| OperationalError
| SMTPException.

#[global] Instance Exn_eq_dec : EqDecision Exn.
Proof. solve_decision. Defined.

(** Calls into collaborators that leave a visible mark, newest first in
    [history]. *)
Inductive Event :=
| TokenCreated (k : string) (uid : nat)
| TokenDeleted (k : string)
| SessionEstablished (uid : nat)     (* django.contrib.auth.login *)
| SessionTerminated                  (* django.contrib.auth.logout *)
| ResetMail (address : string).

#[global] Instance Event_eq_dec : EqDecision Event.
Proof. solve_decision. Defined.

Record World := mkWorld {
  settings : gmap string bool;   (* django.conf.settings *)
  users    : list User;          (* the user table *)
  tokens   : list Token;         (* the authtoken table *)
  session  : option nat;         (* user id registered in request.session *)
  draws    : nat;                (* keys drawn from the random source so far *)
  db_error : option Exn;         (* failure raised by the store, if any *)
  history  : list Event
}.

(** ** The monad of view code *)

Inductive Outcome (A : Type) :=
| Return (a : A)
| Raise (e : Exn).
Arguments Return {A} a.
Arguments Raise {A} e.

Definition M (A : Type) : Type := World → Outcome A * World.

Definition ret {A} (a : A) : M A := λ w, (Return a, w).

Definition raise {A} (e : Exn) : M A := λ w, (Raise e, w).

Definition bind {A B} (m : M A) (k : A → M B) : M B :=
  λ w, match m w with
       | (Return a, w') => k a w'
       | (Raise e, w') => (Raise e, w')
       end.

(** [try: m except: h]. What [m] did to the world before raising stays. *)
Definition try_except {A} (m : M A) (h : Exn → M A) : M A :=
  λ w, match m w with
       | (Return a, w') => (Return a, w')
       | (Raise e, w') => h e w'
       end.

Definition gets {A} (f : World → A) : M A := λ w, (Return (f w), w).

Definition modify (f : World → World) : M unit := λ w, (Return tt, f w).

(** stdpp's notations [x ← m; k] and [m;; k] are used for [bind]. *)
#[global] Instance M_ret : MRet M := @ret.
#[global] Instance M_bind : MBind M := λ A B k m, bind m k.

(** Field updates of the world. *)
Definition with_tokens (ts : list Token) (w : World) : World :=
  mkWorld (settings w) (users w) ts (session w)
          (draws w) (db_error w) (history w).

Definition with_session (s : option nat) (w : World) : World :=
  mkWorld (settings w) (users w) (tokens w) s
          (draws w) (db_error w) (history w).

Definition with_draws (n : nat) (w : World) : World :=
  mkWorld (settings w) (users w) (tokens w) (session w)
          n (db_error w) (history w).

Definition with_event (e : Event) (w : World) : World :=
  mkWorld (settings w) (users w) (tokens w) (session w)
          (draws w) (db_error w) (e :: history w).

Definition set_db_error (e : option Exn) (w : World) : World :=
  mkWorld (settings w) (users w) (tokens w) (session w)
          (draws w) e (history w).

Definition record (e : Event) : M unit := modify (with_event e).

Definition set_tokens (ts : list Token) : M unit := modify (with_tokens ts).

Definition set_session (s : option nat) : M unit := modify (with_session s).

(** [getattr(settings, name, default)]. *)
Definition getattr (s : gmap string bool) (name : string) (default : bool) : bool :=
  match s !! name with
  | Some v => v
  | None => default
  end.

(** ** Serializers and responses *)

(** A serializer after [is_valid()] has run: either it holds the validated
    [object], or the [errors]. *)
Inductive Serializer (A : Type) :=
| Valid (object : A)
| Invalid (errors : Errors).
Arguments Valid {A} object.
Arguments Invalid {A} errors.

Definition is_valid {A} (s : Serializer A) : bool :=
  match s with Valid _ => true | Invalid _ => false end.

Inductive Body :=
| TokenData (k : string)                  (* TokenSerializer(token).data *)
| ErrorData (errors : Errors)             (* serializer.errors *)
| Message (field text : string).          (* {field: text} *)

Record Response := mkResponse { data : Body; status : nat }.

Definition HTTP_200_OK : nat := 200.
Definition HTTP_400_BAD_REQUEST : nat := 400.

(** [request.user] is [None] for the anonymous user. *)
Record Request := mkRequest { DATA : Data; user : option User }.

(** ** Collaborators that are not part of views.py

    The serializers of [rest_auth/serializers.py], the key generator of the
    token model, the password reset form and the mail backend are taken as
    parameters. *)
Class Collaborators := {
  (** the [n]-th value the token model's [generate_key] draws *)
  generate_key : nat → string;
  (** [LoginSerializer(data=...)] after validation against the user table;
      [object] is the authenticated user *)
  LoginSerializer : list User → Data → Serializer User;
  (** [PasswordResetSerializer(data=...)] after validation; [object] is the
      cleaned e-mail address *)
  PasswordResetSerializer : list User → Data → Serializer string;
  (** the addresses [PasswordResetForm.save] mails for a cleaned address *)
  reset_form_save : list User → string → list string;
  (** what the mail backend does with a message for an address: deliver it
      ([None]) or raise *)
  send_mail : string → option Exn
}.

(** ** The token store

    Modelled from the spec: the token store ([rest_framework.authtoken]'s
    [Token] model behind Django's manager) is not part of views.py.  The spec
    describes it as a table keyed by owner identity and indexed by token
    value, whose values are unique across all tokens, with an atomic
    get-or-create that returns the existing record if present and otherwise
    creates one, a delete, and a lookup by value; persistence failures
    propagate unchanged.  The table is kept as the list of its rows and the
    two uniqueness constraints are checked at insertion, as the database
    does. *)
Section token_store.
Context `{Collaborators}.

(** Every query first reaches the database, which may be failing. *)
Definition db_execute : M unit :=
  λ w, match db_error w with
       | Some e => (Raise e, w)
       | None => (Return tt, w)
       end.

Definition owned_by (uid : nat) (ts : list Token) : list Token :=
  filter (λ t, user_id t = uid) ts.

Definition with_key (k : string) (ts : list Token) : list Token :=
  filter (λ t, key t = k) ts.

(** [Token.objects.get(user=user)] *)
Definition objects_get (uid : nat) : M Token :=
  db_execute ;;
  rows ← gets (λ w, owned_by uid (tokens w));
  match rows with
  | [] => raise DoesNotExist
  | [t] => ret t
  | _ => raise MultipleObjectsReturned
  end.

(** [Token.generate_key()]: one more draw from the random source. *)
Definition draw_key : M string :=
  λ w, (Return (generate_key (draws w)), with_draws (S (draws w)) w).

(** [Token.objects.create(user=user)]: the key is generated on the Python
    side, then the row is inserted; the insert is refused when the primary
    key or the owner is already present. *)
Definition objects_create (uid : nat) : M Token :=
  k ← draw_key;
  db_execute ;;
  rows ← gets tokens;
  if decide (k ∈ key <$> rows ∨ uid ∈ user_id <$> rows)
  then raise IntegrityError
  else
    set_tokens (mkToken k uid :: rows) ;;
    record (TokenCreated k uid) ;;
    ret (mkToken k uid).

(** [Token.objects.get_or_create(user=user)] *)
Definition get_or_create (uid : nat) : M (Token * bool) :=
  try_except
    (t ← objects_get uid; ret (t, false))
    (λ e, match e with
          | DoesNotExist =>
              try_except
                (t ← objects_create uid; ret (t, true))
                (λ e', match e' with
                       | IntegrityError =>
                           try_except
                             (t ← objects_get uid; ret (t, false))
                             (λ e'', match e'' with
                                     | DoesNotExist => raise e'
                                     | _ => raise e''
                                     end)
                       | _ => raise e'
                       end)
          | _ => raise e
          end).

(** [user.auth_token]: the reverse side of the one-to-one link; the
    anonymous user has no such attribute. *)
Definition auth_token (u : option User) : M Token :=
  match u with
  | None => raise AttributeError
  | Some u => objects_get (pk u)
  end.

(** [token.delete()] *)
Definition Token_delete (t : Token) : M unit :=
  db_execute ;;
  rows ← gets tokens;
  set_tokens (filter (λ t', key t' ≠ key t) rows) ;;
  record (TokenDeleted (key t)).

Definition get_user (us : list User) (uid : nat) : option User :=
  head (filter (λ u, pk u = uid) us).

(** Modelled from the spec: [resolve] (the token authentication that runs
    before every authenticated request) is not part of views.py.  The spec:
    exact-match lookup by value; [InvalidToken] if no matching token exists
    or the owning identity is inactive, otherwise the owning identity;
    read-only. *)
Definition resolve (token_value : string) : M User :=
  db_execute ;;
  rows ← gets (λ w, with_key token_value (tokens w));
  match rows with
  | [] => raise InvalidToken
  | [t] =>
      owner ← gets (λ w, get_user (users w) (user_id t));
      match owner with
      | Some u => if is_active u then ret u else raise InvalidToken
      | None => raise InvalidToken
      end
  | _ => raise MultipleObjectsReturned
  end.

(** ** The session framework *)

(** [django.contrib.auth.login(request, user)] *)
Definition auth_login (u : User) : M unit :=
  set_session (Some (pk u)) ;;
  record (SessionEstablished (pk u)).

(** The session table lives in the database: it is out of reach when the
    database is, and is not touched by a failure of the token table. *)
Definition session_execute : M unit :=
  λ w, match db_error w with
       | Some OperationalError => (Raise OperationalError, w)
       | _ => (Return tt, w)
       end.

(** [django.contrib.auth.logout(request)]: flushes the session, which
    deletes its row. *)
Definition auth_logout : M unit :=
  session_execute ;;
  set_session None ;;
  record SessionTerminated.
End token_store.

(** ** The views *)

Module Login.
Section view.
Context `{Collaborators}.

Definition get_serializer (request : Request) : M (Serializer User) :=
  gets (λ w, LoginSerializer (users w) (DATA request)).

(** [self.user] and [self.token] are handed to the caller instead of being
    stored on the view. *)
Definition login (serializer_object : User) : M Token :=
  let user := serializer_object in
  r ← get_or_create (pk user);
  let '(token, created) := r in
  session_login ← gets (λ w, getattr (settings w) "REST_SESSION_LOGIN" true);
  (if session_login : bool then auth_login user else ret tt) ;;
  ret token.

Definition get_response (token : Token) : Response :=
  mkResponse (TokenData (key token)) HTTP_200_OK.

Definition get_error_response (errors : Errors) : Response :=
  mkResponse (ErrorData errors) HTTP_400_BAD_REQUEST.

Definition post (request : Request) : M Response :=
  serializer ← get_serializer request;
  match serializer with
  | Invalid errors => ret (get_error_response errors)
  | Valid object =>
      token ← login object;
      ret (get_response token)
  end.
End view.
End Login.

Module Logout.
Section view.
Context `{Collaborators}.

Definition post (request : Request) : M Response :=
  try_except
    (t ← auth_token (user request); Token_delete t)
    (λ _, ret tt) ;;
  auth_logout ;;
  ret (mkResponse (Message "success" "Successfully logged out.") HTTP_200_OK).
End view.
End Logout.

Module PasswordReset.
Section view.
Context `{Collaborators}.

Definition get_serializer (data : Data) : M (Serializer string) :=
  gets (λ w, PasswordResetSerializer (users w) data).

(** One message handed to the mail backend. *)
Definition send (a : string) : M unit :=
  match send_mail a with
  | Some e => raise e
  | None => record (ResetMail a)
  end.

(** [serializer.save()]: the password reset form mails the addresses it
    selects, one after the other. *)
Definition save (address : string) : M unit :=
  us ← gets users;
  fold_right (λ a k, send a ;; k) (ret tt) (reset_form_save us address).

Definition post (request : Request) : M Response :=
  serializer ← get_serializer (DATA request);
  match serializer with
  | Invalid errors =>
      ret (mkResponse (ErrorData errors) HTTP_400_BAD_REQUEST)
  | Valid address =>
      save address ;;
      ret (mkResponse (Message "success" "Password reset e-mail has been sent.")
                      HTTP_200_OK)
  end.
End view.
End PasswordReset.

(** ** Runs of the service

    The requests the views serve, and the one move of the environment the
    views react to: the database starting or ceasing to fail. *)
Inductive Op :=
| POST_login (request : Request)
| POST_logout (request : Request)
| POST_password_reset (request : Request)
| StoreFault (e : option Exn).

Section runs.
Context `{Collaborators}.

Definition step (op : Op) (w : World) : World :=
  match op with
  | POST_login request => (Login.post request w).2
  | POST_logout request => (Logout.post request w).2
  | POST_password_reset request => (PasswordReset.post request w).2
  | StoreFault e => set_db_error e w
  end.

Definition run (ops : list Op) (w : World) : World :=
  fold_left (λ w op, step op w) ops w.

(** A world before any token was issued. *)
Definition pristine (w : World) : Prop :=
  tokens w = [] ∧ history w = [] ∧ draws w = 0.

Inductive reachable : World → Prop :=
| reachable_init w : pristine w → reachable w
| reachable_step op w : reachable w → reachable (step op w).

(** [revoke(I)]: a logout request made by the identity with key [uid]. *)
Definition is_logout_of (uid : nat) (op : Op) : Prop :=
  match op with
  | POST_logout request =>
      match user request with
      | Some u => pk u = uid
      | None => False
      end
  | _ => False
  end.
End runs.

(** ** Notions used to state the properties *)

Section derived.
Context `{Collaborators}.

(** What [get_or_create] can do, case by case. *)
Inductive goc_result (uid : nat) (w : World) :
  Outcome (Token * bool) * World → Prop :=
| goc_found t :
    db_error w = None →
    owned_by uid (tokens w) = [t] →
    goc_result uid w (Return (t, false), w)
| goc_created :
    db_error w = None →
    owned_by uid (tokens w) = [] →
    generate_key (draws w) ∉ key <$> tokens w →
    goc_result uid w
      (Return (mkToken (generate_key (draws w)) uid, true),
       with_event (TokenCreated (generate_key (draws w)) uid)
         (with_tokens (mkToken (generate_key (draws w)) uid :: tokens w)
            (with_draws (S (draws w)) w)))
| goc_raised e w' :
    w' = w ∨ w' = with_draws (S (draws w)) w →
    (db_error w = None →
     (owned_by uid (tokens w) = [] ∧
      generate_key (draws w) ∈ key <$> tokens w) ∨
     (2 ≤ length (owned_by uid (tokens w)))%nat) →
    goc_result uid w (Raise e, w').

(** The world after the session part of [Login.login]. *)
Definition established (u : User) (w : World) : World :=
  if getattr (settings w) "REST_SESSION_LOGIN" true
  then with_event (SessionEstablished (pk u)) (with_session (Some (pk u)) w)
  else w.

(** The world after the guarded deletion of [Logout.post]: the token row
    goes when the requesting user has one and the store answers, and
    nothing changes otherwise. *)
Definition delete_attempt (request : Request) (w : World) : World :=
  match user request, db_error w with
  | Some u, None =>
      match owned_by (pk u) (tokens w) with
      | [t] =>
          with_event (TokenDeleted (key t))
            (with_tokens (filter (λ t', key t' ≠ key t) (tokens w)) w)
      | _ => w
      end
  | _, _ => w
  end.

Definition logged_out : Response :=
  mkResponse (Message "success" "Successfully logged out.") HTTP_200_OK.

Definition reset_sent : Response :=
  mkResponse (Message "success" "Password reset e-mail has been sent.")
             HTTP_200_OK.

(** Two worlds that differ at most in the mails on record. *)
Definition same_but_mail (w w' : World) : Prop :=
  tokens w' = tokens w ∧ draws w' = draws w ∧ users w' = users w ∧
  settings w' = settings w ∧ db_error w' = db_error w ∧
  session w' = session w ∧
  ∀ k, TokenDeleted k ∈ history w' ↔ TokenDeleted k ∈ history w.

(** What a step can do to the token table, the draw counter and the
    deletions on record. *)
Inductive effect (op : Op) (w w' : World) : Prop :=
| effect_quiet :
    tokens w' = tokens w →
    (draws w ≤ draws w')%nat →
    (∀ k, TokenDeleted k ∈ history w' ↔ TokenDeleted k ∈ history w) →
    effect op w w'
| effect_mint uid :
    owned_by uid (tokens w) = [] →
    generate_key (draws w) ∉ key <$> tokens w →
    tokens w' = mkToken (generate_key (draws w)) uid :: tokens w →
    draws w' = S (draws w) →
    (∀ k, TokenDeleted k ∈ history w' ↔ TokenDeleted k ∈ history w) →
    effect op w w'
| effect_delete t :
    is_logout_of (user_id t) op →
    db_error w = None →
    owned_by (user_id t) (tokens w) = [t] →
    tokens w' = filter (λ t', key t' ≠ key t) (tokens w) →
    draws w' = draws w →
    (∀ k, TokenDeleted k ∈ history w'
          ↔ k = key t ∨ TokenDeleted k ∈ history w) →
    effect op w w'.

(** The two uniqueness constraints of the table. *)
Definition store_consistent (w : World) : Prop :=
  NoDup (key <$> tokens w) ∧ NoDup (user_id <$> tokens w).

(** Every key in the table or on record as deleted came out of the random
    source at an earlier draw. *)
Definition keys_drawn (w : World) : Prop :=
  (∀ t, t ∈ tokens w → ∃ i, i < draws w ∧ key t = generate_key i) ∧
  (∀ k, TokenDeleted k ∈ history w → ∃ i, i < draws w ∧ k = generate_key i).

(** No key on record as deleted is in the table. *)
Definition no_reuse (w : World) : Prop :=
  ∀ k, TokenDeleted k ∈ history w → k ∉ key <$> tokens w.

(** No logout of [uid] is served while the store answers. *)
Fixpoint unrevoked (uid : nat) (ops : list Op) (w : World) : Prop :=
  match ops with
  | [] => True
  | op :: ops =>
      (¬ is_logout_of uid op ∨ db_error w ≠ None) ∧
      unrevoked uid ops (step op w)
  end.
End derived.

(** ** A concrete deployment, used to run the definitions *)
Module Demo.
Definition alice : User := mkUser 1 "alice@example.org" true.
Definition bob : User := mkUser 2 "bob@example.org" true.

Definition field (name : string) (d : Data) : option string :=
  snd <$> head (filter (λ p, p.1 = name) d).

Definition check_login (us : list User) (d : Data) : Serializer User :=
  match field "username" d, field "password" d with
  | Some "alice", Some "correct" => Valid alice
  | Some "bob", Some "hunter2" => Valid bob
  | Some _, Some _ =>
      Invalid [("non_field_errors",
                ["Unable to login with provided credentials."])]
  | None, Some _ => Invalid [("username", ["This field is required."])]
  | Some _, None => Invalid [("password", ["This field is required."])]
  | None, None =>
      Invalid [("username", ["This field is required."]);
               ("password", ["This field is required."])]
  end.

Definition check_reset (us : list User) (d : Data) : Serializer string :=
  match field "email" d with
  | Some a => Valid a
  | None => Invalid [("email", ["This field is required."])]
  end.

Definition mail_known (us : list User) (a : string) : list string :=
  email <$> filter (λ u, email u = a ∧ is_active u = true) us.

(** Keys that never repeat: ["abc123"], ["abc124"], ... *)
Definition fresh_keys : Collaborators :=
  {| generate_key n := "abc" +:+ pretty (123 + n);
     LoginSerializer := check_login;
     PasswordResetSerializer := check_reset;
     reset_form_save := mail_known;
     send_mail a := None |}.

(** A random source that yields the same key again. *)
Definition repeating_keys : Collaborators :=
  {| generate_key n := "abc123";
     LoginSerializer := check_login;
     PasswordResetSerializer := check_reset;
     reset_form_save := mail_known;
     send_mail a := None |}.


Definition start : World :=
  mkWorld ∅ [alice; bob] [] None 0 None [].

Definition as_alice : Request :=
  mkRequest [("username", "alice"); ("password", "correct")] (Some alice).
Definition as_bob : Request :=
  mkRequest [("username", "bob"); ("password", "hunter2")] (Some bob).
Definition wrong_password : Request :=
  mkRequest [("username", "alice"); ("password", "wrong")] None.
Definition reset_alice : Request :=
  mkRequest [("email", "alice@example.org")] None.

(** The same deployment without any account. *)
Definition nobody : World :=
  mkWorld ∅ [] [] None 0 None [].

(** The store refusing every query. *)
Definition down : option Exn := Some (StoreError "connection refused").

(** The database out of reach. *)
Definition unreachable : option Exn := Some OperationalError.
End Demo.

(** * Properties *)

(** ** The token store *)

Ltac unfold_monad :=
  unfold mbind, M_bind, bind, try_except, mret, M_ret, ret, raise, gets,
    modify, record, set_tokens, set_session in *.

Ltac unfold_world :=
  unfold with_tokens, with_session, with_draws, with_event, set_db_error;
  simpl.

Lemma elem_of_cons_other {A} (x y : A) (l : list A) :
  x ≠ y → x ∈ y :: l ↔ x ∈ l.
Proof.
  intros Hne. rewrite elem_of_cons. split; [by intros [?|?]|by right].
Qed.

Section store_facts.
Context `{Collaborators}.

Lemma owned_by_nil_not_owner uid ts :
  owned_by uid ts = [] → uid ∉ user_id <$> ts.
Proof.
  intros Hnil Hin. apply list_elem_of_fmap in Hin as (t & -> & Ht).
  assert (t ∈ owned_by (user_id t) ts) as Hin
    by (apply list_elem_of_filter; done).
  rewrite Hnil in Hin. by apply not_elem_of_nil in Hin.
Qed.

Lemma owned_by_cons_fresh uid k ts :
  owned_by uid ts = [] → owned_by uid (mkToken k uid :: ts) = [mkToken k uid].
Proof.
  intros Hnil. unfold owned_by in *. rewrite filter_cons_True by done.
  by rewrite Hnil.
Qed.

Lemma objects_get_down uid w e :
  db_error w = Some e → objects_get uid w = (Raise e, w).
Proof.
  destruct w; simpl; intros ->. reflexivity.
Qed.

Lemma objects_get_up uid w :
  db_error w = None →
  objects_get uid w =
    (match owned_by uid (tokens w) with
     | [] => Raise DoesNotExist
     | [t] => Return t
     | _ => Raise MultipleObjectsReturned
     end, w).
Proof.
  destruct w as [st us ts se dr dbe hi]; simpl; intros ->.
  unfold objects_get, db_execute. unfold_monad. simpl.
  by destruct (owned_by uid ts) as [|t [|t' l]].
Qed.

Lemma objects_create_down uid w e :
  db_error w = Some e →
  objects_create uid w = (Raise e, with_draws (S (draws w)) w).
Proof.
  destruct w; simpl; intros ->. reflexivity.
Qed.

Lemma objects_create_up uid w :
  db_error w = None →
  objects_create uid w =
    let k := generate_key (draws w) in
    if decide (k ∈ key <$> tokens w ∨ uid ∈ user_id <$> tokens w)
    then (Raise IntegrityError, with_draws (S (draws w)) w)
    else (Return (mkToken k uid),
          with_event (TokenCreated k uid)
            (with_tokens (mkToken k uid :: tokens w)
               (with_draws (S (draws w)) w))).
Proof.
  destruct w as [st us ts se dr dbe hi]; simpl; intros ->.
  unfold objects_create, draw_key, db_execute. unfold_monad. simpl.
  by case_decide.
Qed.

Lemma get_or_create_spec uid w : goc_result uid w (get_or_create uid w).
Proof.
  unfold get_or_create. unfold_monad.
  destruct (db_error w) as [e|] eqn:Hdb.
  - rewrite (objects_get_down _ _ _ Hdb).
    destruct e; try (by apply goc_raised; [auto|congruence]).
    rewrite (objects_create_down _ _ _ Hdb).
    apply goc_raised; [auto|congruence].
  - rewrite (objects_get_up _ _ Hdb).
    destruct (owned_by uid (tokens w)) as [|t [|t' l]] eqn:Hrows.
    + rewrite (objects_create_up _ _ Hdb). simpl.
      case_decide as Hdup.
      * rewrite objects_get_up by done. simpl. rewrite Hrows.
        apply goc_raised; [by right|].
        intros _. left. split; [done|]. destruct Hdup as [?|Hu]; [done|].
        by apply owned_by_nil_not_owner in Hrows.
      * apply goc_created; [done..|]. tauto.
    + by apply goc_found.
    + apply goc_raised; [by left|]. intros _. right. rewrite Hrows. simpl. lia.
Qed.
End store_facts.

(** ** The views, as equations *)

Section view_facts.
Context `{Collaborators}.

Lemma Login_login_eq u w :
  Login.login u w =
    match get_or_create (pk u) w with
    | (Return (t, _), w') => (Return t, established u w')
    | (Raise e, w') => (Raise e, w')
    end.
Proof.
  unfold Login.login, established, auth_login. unfold_monad.
  destruct (get_or_create (pk u) w) as [[[t c]|e] w']; [|done].
  by destruct (getattr (settings w') "REST_SESSION_LOGIN" true).
Qed.

Lemma Login_post_eq request w :
  Login.post request w =
    match LoginSerializer (users w) (DATA request) with
    | Invalid errors => (Return (Login.get_error_response errors), w)
    | Valid u =>
        match Login.login u w with
        | (Return t, w') => (Return (Login.get_response t), w')
        | (Raise e, w') => (Raise e, w')
        end
    end.
Proof.
  unfold Login.post, Login.get_serializer. unfold_monad.
  destruct (LoginSerializer (users w) (DATA request)) as [u|errors]; [|done].
  by destruct (Login.login u w) as [[t|e] w'].
Qed.

Lemma Token_delete_up t w :
  db_error w = None →
  Token_delete t w =
    (Return tt,
     with_event (TokenDeleted (key t))
       (with_tokens (filter (λ t', key t' ≠ key t) (tokens w)) w)).
Proof.
  destruct w as [st us ts se dr dbe hi]; simpl; intros ->. reflexivity.
Qed.

Lemma Token_delete_down t w e :
  db_error w = Some e → Token_delete t w = (Raise e, w).
Proof.
  destruct w; simpl; intros ->. reflexivity.
Qed.

Lemma delete_attempt_db_error request w :
  db_error (delete_attempt request w) = db_error w.
Proof.
  unfold delete_attempt.
  destruct (user request), (db_error w) eqn:Hdb; try done.
  by destruct (owned_by _ _) as [|t [|t' l]].
Qed.

(** The guarded deletion of [Logout.post] never raises. *)
Lemma guarded_deletion_eq request w :
  try_except (t ← auth_token (user request); Token_delete t) (λ _, ret tt) w
    = (Return tt, delete_attempt request w).
Proof.
  unfold delete_attempt, auth_token. unfold_monad.
  destruct (user request) as [u|]; [|done].
  destruct (db_error w) as [e|] eqn:Hdb.
  - by rewrite (objects_get_down _ _ _ Hdb).
  - rewrite (objects_get_up _ _ Hdb).
    destruct (owned_by (pk u) (tokens w)) as [|t [|t' l]]; [done| |done].
    by rewrite (Token_delete_up _ _ Hdb).
Qed.

Lemma auth_logout_eq w :
  auth_logout w =
    if decide (db_error w = Some OperationalError)
    then (Raise OperationalError, w)
    else (Return tt, with_event SessionTerminated (with_session None w)).
Proof.
  unfold auth_logout, session_execute. unfold_monad.
  case_decide as Hdb; [by rewrite Hdb|].
  destruct (db_error w) as [[]|]; done.
Qed.

Lemma Logout_post_eq request w :
  Logout.post request w =
    if decide (db_error w = Some OperationalError)
    then (Raise OperationalError, w)
    else (Return logged_out,
          with_event SessionTerminated
            (with_session None (delete_attempt request w))).
Proof.
  unfold Logout.post, logged_out.
  unfold mbind at 1 2, M_bind at 1 2, bind at 1 2.
  rewrite guarded_deletion_eq, auth_logout_eq, delete_attempt_db_error.
  case_decide as Hdb; [|done].
  unfold delete_attempt. rewrite Hdb. by destruct (user request).
Qed.

Lemma Logout_post_up request w :
  db_error w ≠ Some OperationalError →
  Logout.post request w =
    (Return logged_out,
     with_event SessionTerminated
       (with_session None (delete_attempt request w))).
Proof. intros Hdb. rewrite Logout_post_eq. by case_decide. Qed.

Lemma send_frame a w : same_but_mail w (PasswordReset.send a w).2.
Proof.
  unfold PasswordReset.send, same_but_mail.
  destruct (send_mail a); [done|].
  unfold_monad. unfold_world. repeat split; try done;
    by rewrite elem_of_cons_other.
Qed.

Lemma same_but_mail_trans w1 w2 w3 :
  same_but_mail w1 w2 → same_but_mail w2 w3 → same_but_mail w1 w3.
Proof.
  intros (Ht & Hd & Hu & Hs & He & Hse & Hh) (Ht' & Hd' & Hu' & Hs' & He' & Hse' & Hh').
  unfold same_but_mail. rewrite Ht', Hd', Hu', Hs', He', Hse'.
  repeat (split; [done|]). intros k. by rewrite Hh'.
Qed.

Lemma same_but_mail_refl w : same_but_mail w w.
Proof. by repeat split. Qed.

(** What delivering to a list of addresses does: all of them are mailed and
    it returns, or the backend raises at one of them. *)
Lemma deliver_spec (l : list string) w :
  let r := fold_right (λ a k, PasswordReset.send a ;; k) (ret tt) l w in
  same_but_mail w r.2 ∧
  ((∀ a, a ∈ l → send_mail a = None) → r.1 = Return tt) ∧
  (r.1 = Return tt ∨
   ∃ a e, a ∈ l ∧ send_mail a = Some e ∧ r.1 = Raise e).
Proof.
  revert w. induction l as [|a l IH]; intros w; simpl.
  - split; [apply same_but_mail_refl|]. split; [done|by left].
  - pose proof (send_frame a w) as Hframe.
    unfold mbind, M_bind, bind. unfold PasswordReset.send in *.
    destruct (send_mail a) as [e|] eqn:Ha; simpl in *.
    + split; [done|]. split.
      * intros Hall. specialize (Hall a (list_elem_of_here _ _)). congruence.
      * right. exists a, e. split; [apply list_elem_of_here|done].
    + destruct (IH (with_event (ResetMail a) w)) as (Hf & Hall & Hcases).
      split; [by eapply same_but_mail_trans|]. split.
      * intros Hl. apply Hall. intros b Hb. apply Hl. by apply list_elem_of_further.
      * destruct Hcases as [Hret|(b & e & Hb & Hbe & Hraise)]; [by left|].
        right. exists b, e. split; [by apply list_elem_of_further|done].
Qed.

Lemma save_frame address w :
  same_but_mail w (PasswordReset.save address w).2.
Proof.
  unfold PasswordReset.save. unfold mbind at 1, M_bind at 1, bind at 1, gets.
  apply deliver_spec.
Qed.


Lemma PasswordReset_post_eq request w :
  PasswordReset.post request w =
    match PasswordResetSerializer (users w) (DATA request) with
    | Invalid errors =>
        (Return (mkResponse (ErrorData errors) HTTP_400_BAD_REQUEST), w)
    | Valid address =>
        match PasswordReset.save address w with
        | (Return _, w') => (Return reset_sent, w')
        | (Raise e, w') => (Raise e, w')
        end
    end.
Proof.
  unfold PasswordReset.post, PasswordReset.get_serializer, reset_sent.
  unfold mbind at 1, M_bind at 1, bind at 1, gets.
  destruct (PasswordResetSerializer (users w) (DATA request)); [|done].
  unfold mbind at 1, M_bind at 1, bind at 1.
  by destruct (PasswordReset.save object w) as [[[]|e] w'].
Qed.

Lemma PasswordReset_post_frame request w :
  same_but_mail w (PasswordReset.post request w).2.
Proof.
  rewrite PasswordReset_post_eq.
  destruct (PasswordResetSerializer (users w) (DATA request)) as [a|errors];
    [|apply same_but_mail_refl].
  pose proof (save_frame a w) as Hf.
  by destruct (PasswordReset.save a w) as [[[]|e] w'].
Qed.
End view_facts.

(** ** One step of the service *)

Section run_facts.
Context `{Collaborators}.

Lemma established_fields u w :
  tokens (established u w) = tokens w ∧
  draws (established u w) = draws w ∧
  users (established u w) = users w ∧
  settings (established u w) = settings w ∧
  db_error (established u w) = db_error w ∧
  ∀ k, TokenDeleted k ∈ history (established u w)
       ↔ TokenDeleted k ∈ history w.
Proof.
  unfold established.
  destruct (getattr (settings w) "REST_SESSION_LOGIN" true); [|done].
  unfold_world. repeat split; try done; by rewrite elem_of_cons_other.
Qed.

Lemma step_effect op w : effect op w (step op w).
Proof.
  destruct op as [request|request|request|e]; simpl.
  - rewrite Login_post_eq.
    destruct (LoginSerializer (users w) (DATA request)) as [u|errors];
      [|by apply effect_quiet].
    rewrite Login_login_eq.
    pose proof (get_or_create_spec (pk u) w) as Hg.
    destruct (get_or_create (pk u) w) as [[[t c]|e] w1].
    + destruct (established_fields u w1) as (Ht & Hd & _ & _ & _ & Hh).
      simpl. inversion Hg; subst.
      * apply effect_quiet; [done|lia|done].
      * eapply effect_mint; [done|done|by rewrite Ht|by rewrite Hd|].
        intros k. rewrite Hh. unfold_world. by rewrite elem_of_cons_other.
    + simpl. inversion Hg as [| |? ? [->| ->] ?]; subst.
      * apply effect_quiet; [done|lia|done].
      * apply effect_quiet; [done|simpl; lia|done].
  - rewrite Logout_post_eq. case_decide as Hdown; [by apply effect_quiet|].
    simpl. unfold delete_attempt.
    destruct (user request) as [u|] eqn:Hu;
      [|apply effect_quiet; [done|done|];
        intros k; unfold_world; by rewrite elem_of_cons_other].
    destruct (db_error w) eqn:Hdb;
      [apply effect_quiet; [done|done|];
        intros k; unfold_world; by rewrite elem_of_cons_other|].
    destruct (owned_by (pk u) (tokens w)) as [|t [|t' l]] eqn:Hrows;
      try (apply effect_quiet; [done|done|];
        intros k; unfold_world; by rewrite elem_of_cons_other).
    assert (user_id t = pk u) as Hown.
    { assert (t ∈ owned_by (pk u) (tokens w)) as Hin
        by (rewrite Hrows; apply list_elem_of_here).
      by apply list_elem_of_filter in Hin as [? _]. }
    apply (effect_delete _ _ _ t); simpl.
    + by rewrite Hu.
    + done.
    + by rewrite Hown.
    + done.
    + done.
    + intros k. rewrite elem_of_cons_other by done. rewrite elem_of_cons.
      split; (intros [Hk|?]; [left|by right]); congruence.
  - destruct (PasswordReset_post_frame request w)
      as (Ht & Hd & _ & _ & _ & _ & Hh).
    apply effect_quiet; [done|by rewrite Hd|done].
  - by apply effect_quiet.
Qed.

Lemma step_users op w : users (step op w) = users w.
Proof.
  destruct op as [request|request|request|e]; simpl; [| | |done].
  - rewrite Login_post_eq.
    destruct (LoginSerializer (users w) (DATA request)) as [u|errors]; [|done].
    rewrite Login_login_eq.
    pose proof (get_or_create_spec (pk u) w) as Hg.
    destruct (get_or_create (pk u) w) as [[[t c]|e] w1]; simpl.
    + destruct (established_fields u w1) as (_ & _ & -> & _).
      by inversion Hg; subst.
    + by inversion Hg as [| |? ? [->| ->] ?]; subst.
  - rewrite Logout_post_eq. case_decide as Hdown; [done|].
    simpl. unfold delete_attempt.
    destruct (user request), (db_error w); try done.
    by destruct (owned_by _ _) as [|t [|t' l]].
  - by destruct (PasswordReset_post_frame request w) as (_ & _ & Hu & _).
Qed.

Lemma run_users ops w : users (run ops w) = users w.
Proof.
  revert w. induction ops as [|op ops IH]; intros w; [done|].
  simpl. fold (run ops (step op w)). by rewrite IH, step_users.
Qed.

Lemma run_app ops1 ops2 w : run (ops1 ++ ops2) w = run ops2 (run ops1 w).
Proof. apply fold_left_app. Qed.

Lemma reachable_run ops w : reachable w → reachable (run ops w).
Proof.
  revert w. induction ops as [|op ops IH]; intros w Hw; [done|].
  apply IH. by apply reachable_step.
Qed.
End run_facts.

(** ** Invariants of the token table *)

Section invariants.
Context `{Collaborators}.

Lemma filter_fmap_NoDup {A} (f : Token → A) (P : Token → Prop)
    `{∀ t, Decision (P t)} (ts : list Token) :
  NoDup (f <$> ts) → NoDup (f <$> filter P ts).
Proof.
  intros Hnd. eapply sublist_NoDup; [exact Hnd|].
  apply fmap_sublist, sublist_filter.
Qed.

Lemma filter_fmap_elem_of {A} (f : Token → A) (P : Token → Prop)
    `{∀ t, Decision (P t)} (ts : list Token) (x : A) :
  x ∈ f <$> filter P ts → x ∈ f <$> ts.
Proof.
  intros Hin. eapply elem_of_sublist; [exact Hin|].
  apply fmap_sublist, sublist_filter.
Qed.

Lemma effect_consistent op w w' :
  effect op w w' → store_consistent w → store_consistent w'.
Proof.
  intros [Ht _ _|uid Hnone Hfresh Ht _ _|t _ _ _ Ht _ _] [Hk Hu];
    unfold store_consistent; rewrite Ht.
  - done.
  - rewrite !fmap_cons, !NoDup_cons. simpl.
    eauto using owned_by_nil_not_owner.
  - split; by apply filter_fmap_NoDup.
Qed.

Lemma effect_keys_drawn op w w' :
  effect op w w' → keys_drawn w → keys_drawn w'.
Proof.
  intros [Ht Hd Hh|uid _ _ Ht Hd Hh|t _ _ Hrows Ht Hd Hh] [Hk Hdel];
    split.
  - intros t. rewrite Ht. intros (i & ? & ?)%Hk. exists i. split; [lia|done].
  - intros k. rewrite Hh. intros (i & ? & ?)%Hdel. exists i. split; [lia|done].
  - intros t. rewrite Ht, Hd, elem_of_cons. intros [->|(i & ? & ?)%Hk].
    + exists (draws w). split; [lia|done].
    + exists i. split; [lia|done].
  - intros k. rewrite Hh, Hd. intros (i & ? & ?)%Hdel.
    exists i. split; [lia|done].
  - intros t'. rewrite Ht, Hd. intros [_ Hin]%list_elem_of_filter. eauto.
  - intros k. rewrite Hh, Hd. intros [->|Hin]; [|eauto].
    apply Hk. assert (t ∈ owned_by (user_id t) (tokens w)) as Hin
      by (rewrite Hrows; apply list_elem_of_here).
    by apply list_elem_of_filter in Hin as [_ ?].
Qed.

Lemma effect_no_reuse op w w' :
  Inj (=) (=) generate_key →
  effect op w w' → keys_drawn w → no_reuse w → no_reuse w'.
Proof.
  intros Hinj [Ht Hd Hh|uid _ _ Ht Hd Hh|t _ _ Hrows Ht Hd Hh] [Hk Hdel] Hno k;
    rewrite Hh, Ht.
  - apply Hno.
  - intros Hin. rewrite fmap_cons, not_elem_of_cons.
    split; [|by apply Hno]. simpl.
    apply Hdel in Hin as (i & Hi & ->). intros Heq%Hinj. lia.
  - intros [->|Hin].
    + intros (t' & Hkey & [Hne _]%list_elem_of_filter)%list_elem_of_fmap.
      by apply Hne.
    + intros Hin'%filter_fmap_elem_of. by apply (Hno k).
Qed.

Lemma pristine_consistent w : pristine w → store_consistent w.
Proof. intros (Ht & _ & _). unfold store_consistent. rewrite Ht. split; constructor. Qed.

Lemma reachable_consistent w : reachable w → store_consistent w.
Proof.
  induction 1 as [w Hw|op w _ IH]; [by apply pristine_consistent|].
  eapply effect_consistent; [apply step_effect|done].
Qed.

Lemma reachable_keys_drawn w : reachable w → keys_drawn w.
Proof.
  induction 1 as [w (Ht & Hh & _)|op w _ IH].
  - split; [intros t|intros k]; rewrite ?Ht, ?Hh; by intros ?%not_elem_of_nil.
  - eapply effect_keys_drawn; [apply step_effect|done].
Qed.

Lemma reachable_no_reuse w :
  Inj (=) (=) generate_key → reachable w → no_reuse w.
Proof.
  intros Hinj. induction 1 as [w (Ht & Hh & _)|op w Hw IH].
  - intros k. rewrite Hh. by intros ?%not_elem_of_nil.
  - eapply effect_no_reuse;
      [done|apply step_effect|by apply reachable_keys_drawn|done].
Qed.

(** With unique owners, the rows of an owner are exactly its token. *)
Lemma owned_by_unique t ts :
  NoDup (user_id <$> ts) → t ∈ ts → owned_by (user_id t) ts = [t].
Proof.
  induction ts as [|t' ts IH]; [by intros _ ?%not_elem_of_nil|].
  rewrite fmap_cons, NoDup_cons. intros [Hfresh Hnd].
  rewrite elem_of_cons. unfold owned_by in *. intros [->|Hin].
  - rewrite filter_cons_True by done. f_equal.
    destruct (filter (λ t0, user_id t0 = user_id t') ts) as [|t0 l] eqn:Hf;
      [done|].
    assert (t0 ∈ filter (λ t0, user_id t0 = user_id t') ts) as Hin
      by (rewrite Hf; apply list_elem_of_here).
    apply list_elem_of_filter in Hin as [Heq Hin].
    exfalso. apply Hfresh. rewrite <- Heq. by apply list_elem_of_fmap_2.
  - rewrite filter_cons_False; [by apply IH|].
    intros Heq. apply Hfresh. rewrite Heq. by apply list_elem_of_fmap_2.
Qed.

Lemma with_key_unique t ts :
  NoDup (key <$> ts) → t ∈ ts → with_key (key t) ts = [t].
Proof.
  induction ts as [|t' ts IH]; [by intros _ ?%not_elem_of_nil|].
  rewrite fmap_cons, NoDup_cons. intros [Hfresh Hnd].
  rewrite elem_of_cons. unfold with_key in *. intros [->|Hin].
  - rewrite filter_cons_True by done. f_equal.
    destruct (filter (λ t0, key t0 = key t') ts) as [|t0 l] eqn:Hf; [done|].
    assert (t0 ∈ filter (λ t0, key t0 = key t') ts) as Hin
      by (rewrite Hf; apply list_elem_of_here).
    apply list_elem_of_filter in Hin as [Heq Hin].
    exfalso. apply Hfresh. rewrite <- Heq. by apply list_elem_of_fmap_2.
  - rewrite filter_cons_False; [by apply IH|].
    intros Heq. apply Hfresh. rewrite Heq. by apply list_elem_of_fmap_2.
Qed.

Lemma with_key_absent k ts : k ∉ key <$> ts → with_key k ts = [].
Proof.
  intros Hk. unfold with_key.
  destruct (filter (λ t, key t = k) ts) as [|t l] eqn:Hf; [done|].
  assert (t ∈ filter (λ t, key t = k) ts) as Hin
    by (rewrite Hf; apply list_elem_of_here).
  apply list_elem_of_filter in Hin as [Heq Hin].
  exfalso. apply Hk. rewrite <- Heq. by apply list_elem_of_fmap_2.
Qed.
End invariants.

(** ** Login *)

Lemma owned_by_at_most_one (uid : nat) (ts : list Token) :
  NoDup (user_id <$> ts) → (length (owned_by uid ts) ≤ 1)%nat.
Proof.
  intros Hnd. destruct (owned_by uid ts) as [|t l] eqn:Hrows; [simpl; lia|].
  assert (t ∈ owned_by uid ts) as Hin by (rewrite Hrows; apply list_elem_of_here).
  apply list_elem_of_filter in Hin as [<- Hin].
  rewrite (owned_by_unique t ts Hnd Hin) in Hrows.
  injection Hrows as <-. simpl. lia.
Qed.

Section login_facts.
Context `{Collaborators}.

Lemma get_or_create_frame uid w r w' :
  get_or_create uid w = (r, w') →
  users w' = users w ∧ settings w' = settings w ∧ db_error w' = db_error w.
Proof.
  intros Hgoc. pose proof (get_or_create_spec uid w) as Hg.
  rewrite Hgoc in Hg. by inversion Hg as [| |? ? [->| ->] ?]; subst.
Qed.

(** A successful [Login.post], taken apart. *)
Lemma Login_post_Return request w k w' :
  Login.post request w = (Return (mkResponse (TokenData k) HTTP_200_OK), w') →
  ∃ u t c w1,
    LoginSerializer (users w) (DATA request) = Valid u ∧
    get_or_create (pk u) w = (Return (t, c), w1) ∧
    key t = k ∧ w' = established u w1.
Proof.
  rewrite Login_post_eq.
  destruct (LoginSerializer (users w) (DATA request)) as [u|errors];
    [|by intros [=]].
  rewrite Login_login_eq.
  destruct (get_or_create (pk u) w) as [[[t c]|e] w1] eqn:Hgoc;
    [|by intros [=]].
  intros [= <- <-]. by exists u, t, c, w1.
Qed.

Lemma get_or_create_found uid w t :
  db_error w = None → owned_by uid (tokens w) = [t] →
  get_or_create uid w = (Return (t, false), w).
Proof.
  intros Hdb Hrows. unfold get_or_create. unfold_monad.
  by rewrite (objects_get_up _ _ Hdb), Hrows.
Qed.

Lemma get_or_create_Return uid w t c w1 :
  get_or_create uid w = (Return (t, c), w1) →
  db_error w1 = None ∧ owned_by uid (tokens w1) = [t] ∧ user_id t = uid.
Proof.
  intros Hgoc. pose proof (get_or_create_spec uid w) as Hg.
  rewrite Hgoc in Hg. inversion Hg as [t' Hdb Hrows|Hdb Hrows Hfresh|]; subst.
  - split; [done|]. split; [done|].
    assert (t ∈ owned_by uid (tokens w1)) as Hin
      by (rewrite Hrows; apply list_elem_of_here).
    by apply list_elem_of_filter in Hin as [? _].
  - split; [done|]. split; [|done]. by apply owned_by_cons_fresh.
Qed.

(** In a world the service can reach, with the store answering and a key
    generator that never repeats, get-or-create returns. *)
Lemma get_or_create_succeeds uid w :
  Inj (=) (=) generate_key → reachable w → db_error w = None →
  ∃ t c w1, get_or_create uid w = (Return (t, c), w1).
Proof.
  intros Hinj Hw Hdb. pose proof (get_or_create_spec uid w) as Hg.
  destruct (get_or_create uid w) as [[[t c]|e] w1]; [by eauto|].
  exfalso. inversion Hg as [| |? ? _ Hwhy]; subst.
  destruct (Hwhy Hdb) as [[_ Hin]|Hlen].
  - apply list_elem_of_fmap in Hin as (t & Hkey & Hin).
    destruct (reachable_keys_drawn w Hw) as [Hdrawn _].
    destruct (Hdrawn t Hin) as (i & Hi & Hti).
    rewrite Hti in Hkey. apply Hinj in Hkey. lia.
  - destruct (reachable_consistent w Hw) as [_ Hnd].
    pose proof (owned_by_at_most_one uid (tokens w) Hnd). lia.
Qed.

Lemma Login_post_succeeds request w u :
  Inj (=) (=) generate_key → reachable w → db_error w = None →
  LoginSerializer (users w) (DATA request) = Valid u →
  ∃ k w1,
    Login.post request w
      = (Return (mkResponse (TokenData k) HTTP_200_OK), w1).
Proof.
  intros Hinj Hw Hdb Hser.
  destruct (get_or_create_succeeds (pk u) w Hinj Hw Hdb) as (t & c & w1 & Hgoc).
  exists (key t), (established u w1).
  by rewrite Login_post_eq, Hser, Login_login_eq, Hgoc.
Qed.
End login_facts.

(** The demo generator never repeats a value. *)
Lemma fresh_keys_inj :
  Inj (=) (=) (generate_key (Collaborators := Demo.fresh_keys)).
Proof.
  intros n m Heq. cbv [generate_key Demo.fresh_keys] in Heq.
  apply (inj (String.app "abc")), (inj pretty) in Heq. lia.
Qed.

(** C1, as the views have it — Whenever a [POST /login] answers 200 with
    value [k], the serializer has authenticated some identity [I], the one
    row [I] owns in the table the call left is the token with value [k], and
    a second [POST /login] with the same request, run in that world, answers
    200 with [k] again: its get-or-create finds that row ([created] is
    false) and changes nothing, so the table and the draw counter are the
    ones the first call left.  For valid credentials the first call does
    answer 200 in every world the service can reach while the store answers,
    the key generator yielding each value once. *)
Theorem login_twice_same_token `{Collaborators} request w :
  (∀ k w1,
     Login.post request w
       = (Return (mkResponse (TokenData k) HTTP_200_OK), w1) →
     ∃ I,
       LoginSerializer (users w) (DATA request) = Valid I ∧
       owned_by (pk I) (tokens w1) = [mkToken k (pk I)] ∧
       get_or_create (pk I) w1 = (Return (mkToken k (pk I), false), w1) ∧
       ∃ w2,
         Login.post request w1
           = (Return (mkResponse (TokenData k) HTTP_200_OK), w2) ∧
         tokens w2 = tokens w1 ∧ draws w2 = draws w1) ∧
  (∀ I,
     Inj (=) (=) generate_key → reachable w → db_error w = None →
     LoginSerializer (users w) (DATA request) = Valid I →
     ∃ k w1 w2,
       Login.post request w
         = (Return (mkResponse (TokenData k) HTTP_200_OK), w1) ∧
       Login.post request w1
         = (Return (mkResponse (TokenData k) HTTP_200_OK), w2) ∧
       tokens w2 = tokens w1).
Proof.
  assert (∀ k w1,
     Login.post request w
       = (Return (mkResponse (TokenData k) HTTP_200_OK), w1) →
     ∃ I,
       LoginSerializer (users w) (DATA request) = Valid I ∧
       owned_by (pk I) (tokens w1) = [mkToken k (pk I)] ∧
       get_or_create (pk I) w1 = (Return (mkToken k (pk I), false), w1) ∧
       ∃ w2,
         Login.post request w1
           = (Return (mkResponse (TokenData k) HTTP_200_OK), w2) ∧
         tokens w2 = tokens w1 ∧ draws w2 = draws w1) as Hsecond.
  { intros k w1 Hfirst.
    destruct (Login_post_Return _ _ _ _ Hfirst)
      as (u & t & c & w0 & Hser & Hgoc & Hk & ->).
    destruct (get_or_create_frame _ _ _ _ Hgoc) as (Hus & _ & _).
    destruct (get_or_create_Return _ _ _ _ _ Hgoc) as (Hdb & Hrows & Hown).
    destruct (established_fields u w0) as (Ht & Hd & Hu & _ & Hdb' & _).
    assert (t = mkToken k (pk u)) as ->
      by (destruct t; simpl in *; by subst).
    assert (get_or_create (pk u) (established u w0)
              = (Return (mkToken k (pk u), false), established u w0)) as Hfound
      by (apply get_or_create_found; by rewrite ?Hdb', ?Ht).
    exists u. split; [done|]. split; [by rewrite Ht|]. split; [done|].
    exists (established u (established u w0)).
    rewrite Login_post_eq, Hu, Hus, Hser, Login_login_eq, Hfound.
    split; [done|].
    destruct (established_fields u (established u w0)) as (-> & -> & _).
    done. }
  split; [done|].
  intros I Hinj Hw Hdb Hser.
  destruct (Login_post_succeeds request w I Hinj Hw Hdb Hser) as (k & w1 & Hfirst).
  destruct (Hsecond k w1 Hfirst) as (_ & _ & _ & _ & w2 & Hpost & Ht & _).
  by exists k, w1, w2.
Qed.

Lemma login_twice_same_token_witness :
  let w1 := step (H := Demo.fresh_keys) (POST_login Demo.as_alice) Demo.start in
  owned_by 1 (tokens w1) = [mkToken "abc123" 1] ∧
  get_or_create (H := Demo.fresh_keys) 1 w1
    = (Return (mkToken "abc123" 1, false), w1) ∧
  ∃ w2,
    Login.post (H := Demo.fresh_keys) Demo.as_alice w1
      = (Return (mkResponse (TokenData "abc123") HTTP_200_OK), w2) ∧
    tokens w2 = tokens w1 ∧ draws w2 = draws w1.
Proof.
  intros w1.
  destruct (proj1 (login_twice_same_token (H := Demo.fresh_keys)
                     Demo.as_alice Demo.start) "abc123" w1 eq_refl)
    as (I & Hser & Hrest).
  vm_compute in Hser. injection Hser as <-. exact Hrest.
Defined.

(** C1, as the claim has it, fails: with valid credentials and the store
    failing, neither of two logins in a row yields a token value; both end
    in the store's exception and no row is written. *)
Lemma login_twice_store_failure :
  let w := set_db_error Demo.down Demo.start in
  let w1 := (Login.post (H := Demo.fresh_keys) Demo.as_alice w).2 in
  LoginSerializer (Collaborators := Demo.fresh_keys)
    (users w) (DATA Demo.as_alice) = Valid Demo.alice ∧
  (Login.post (H := Demo.fresh_keys) Demo.as_alice w).1
    = Raise (StoreError "connection refused") ∧
  (Login.post (H := Demo.fresh_keys) Demo.as_alice w1).1
    = Raise (StoreError "connection refused") ∧
  tokens (Login.post (H := Demo.fresh_keys) Demo.as_alice w1).2 = [].
Proof.
  repeat split.
Qed.

(** C2 — In every world the service can reach, no identity owns more than
    one row of the token table, and after every [POST /login] answered 200
    with value [k] the rows owned by the authenticated identity are exactly
    the one token with value [k], whether it was found or minted. *)
Theorem login_leaves_one_token `{Collaborators} w :
  reachable w →
  (∀ uid, (length (owned_by uid (tokens w)) ≤ 1)%nat) ∧
  (∀ request k w',
     Login.post request w
       = (Return (mkResponse (TokenData k) HTTP_200_OK), w') →
     ∃ u, LoginSerializer (users w) (DATA request) = Valid u ∧
          owned_by (pk u) (tokens w') = [mkToken k (pk u)] ∧
          ∀ uid, (length (owned_by uid (tokens w')) ≤ 1)%nat).
Proof.
  intros Hw. split.
  - intros uid. apply owned_by_at_most_one. by apply reachable_consistent.
  - intros request k w' Hpost.
    destruct (Login_post_Return _ _ _ _ Hpost) as (u & t & c & w0 & Hser & Hgoc & Hk & ->).
    destruct (get_or_create_Return _ _ _ _ _ Hgoc) as (_ & Hrows & Hown).
    destruct (established_fields u w0) as (Ht & _).
    exists u. rewrite Ht. split; [done|]. split.
    + rewrite Hrows. destruct t as [k' uid']. simpl in *. by subst.
    + intros uid. apply owned_by_at_most_one.
      assert (store_consistent (step (POST_login request) w)) as [_ Hnd]
        by (apply reachable_consistent; by apply reachable_step).
      unfold step in Hnd. rewrite Hpost in Hnd. simpl in Hnd.
      by rewrite Ht in Hnd.
Qed.

Lemma login_leaves_one_token_witness :
  let w := run (H := Demo.fresh_keys)
             [POST_login Demo.as_bob; POST_login Demo.as_alice;
              POST_logout Demo.as_bob] Demo.start in
  let w' := (Login.post (H := Demo.fresh_keys) Demo.as_alice w).2 in
  Login.post (H := Demo.fresh_keys) Demo.as_alice w
    = (Return (mkResponse (TokenData "abc124") HTTP_200_OK), w') ∧
  (∀ uid, (length (owned_by uid (tokens w)) ≤ 1)%nat) ∧
  owned_by 1 (tokens w') = [mkToken "abc124" 1] ∧
  (∀ uid, (length (owned_by uid (tokens w')) ≤ 1)%nat).
Proof.
  intros w w'.
  assert (reachable (H := Demo.fresh_keys) w) as Hw.
  { apply (reachable_run (H := Demo.fresh_keys)).
    apply reachable_init. repeat split; reflexivity. }
  destruct (login_leaves_one_token (H := Demo.fresh_keys) w Hw)
    as [Hone Hlogin].
  destruct (Hlogin Demo.as_alice "abc124" w' eq_refl)
    as (u & Hser & Hrows & Hone').
  vm_compute in Hser. injection Hser as <-.
  split; [reflexivity|]. split; [exact Hone|]. split; [exact Hrows|exact Hone'].
Defined.

(** C5 — When the login serializer rejects the input, [POST /login] answers
    400 with the serializer's errors and the world is left exactly as it
    was: no token row is created, no key is drawn, nothing is recorded. *)
Theorem login_rejected_leaves_store `{Collaborators} request w errors :
  LoginSerializer (users w) (DATA request) = Invalid errors →
  Login.post request w
    = (Return (mkResponse (ErrorData errors) HTTP_400_BAD_REQUEST), w).
Proof.
  intros Hser. by rewrite Login_post_eq, Hser.
Qed.

Lemma login_rejected_leaves_store_witness :
  Login.post (H := Demo.fresh_keys) Demo.wrong_password Demo.start
    = (Return (mkResponse
                 (ErrorData [("non_field_errors",
                              ["Unable to login with provided credentials."])])
                 HTTP_400_BAD_REQUEST),
       Demo.start).
Proof.
  apply (login_rejected_leaves_store (H := Demo.fresh_keys)
           Demo.wrong_password Demo.start).
  reflexivity.
Defined.

(** C6 — On every [POST /login] answered 200, the token comes from
    get-or-create whatever the configuration says, and the session login is
    performed exactly when [REST_SESSION_LOGIN] reads true, which it does
    when the setting is absent. *)
Theorem session_login_iff_flag `{Collaborators} request w k w' :
  Login.post request w = (Return (mkResponse (TokenData k) HTTP_200_OK), w') →
  ∃ u t created w1,
    LoginSerializer (users w) (DATA request) = Valid u ∧
    get_or_create (pk u) w = (Return (t, created), w1) ∧ key t = k ∧
    (history w' = SessionEstablished (pk u) :: history w1
       ↔ getattr (settings w) "REST_SESSION_LOGIN" true = true) ∧
    (getattr (settings w) "REST_SESSION_LOGIN" true = true →
       w' = with_event (SessionEstablished (pk u))
              (with_session (Some (pk u)) w1)) ∧
    (getattr (settings w) "REST_SESSION_LOGIN" true = false → w' = w1) ∧
    (settings w !! "REST_SESSION_LOGIN" = None →
       getattr (settings w) "REST_SESSION_LOGIN" true = true).
Proof.
  intros Hpost.
  destruct (Login_post_Return _ _ _ _ Hpost) as (u & t & c & w1 & Hser & Hgoc & Hk & ->).
  destruct (get_or_create_frame _ _ _ _ Hgoc) as (_ & Hset & _).
  exists u, t, c, w1. repeat (split; [done|]).
  unfold established, getattr. rewrite Hset.
  destruct (settings w !! "REST_SESSION_LOGIN") as [[]|]; simpl.
  - repeat split; done.
  - repeat split; try done.
    intros Heq. exfalso.
    assert (length (history w1) = S (length (history w1))) by (by rewrite Heq at 1).
    lia.
  - repeat split; done.
Qed.

Lemma session_login_iff_flag_witness :
  ∃ u t created w1,
    Demo.check_login (users Demo.start) (DATA Demo.as_alice) = Valid u ∧
    get_or_create (H := Demo.fresh_keys) (pk u) Demo.start
      = (Return (t, created), w1) ∧ key t = "abc123" ∧
    (history (step (H := Demo.fresh_keys) (POST_login Demo.as_alice) Demo.start)
       = SessionEstablished (pk u) :: history w1
       ↔ getattr (settings Demo.start) "REST_SESSION_LOGIN" true = true) ∧
    (getattr (settings Demo.start) "REST_SESSION_LOGIN" true = true →
       step (H := Demo.fresh_keys) (POST_login Demo.as_alice) Demo.start
         = with_event (SessionEstablished (pk u))
             (with_session (Some (pk u)) w1)) ∧
    (getattr (settings Demo.start) "REST_SESSION_LOGIN" true = false →
       step (H := Demo.fresh_keys) (POST_login Demo.as_alice) Demo.start = w1) ∧
    (settings Demo.start !! "REST_SESSION_LOGIN" = None →
       getattr (settings Demo.start) "REST_SESSION_LOGIN" true = true).
Proof.
  apply (session_login_iff_flag (H := Demo.fresh_keys)
           Demo.as_alice Demo.start "abc123").
  reflexivity.
Defined.

(** C7, as the views have it — [POST /login] has three outcomes.  When the
    serializer rejects the input the answer is 400 with the collected errors
    and the world is unchanged.  When it accepts and get-or-create hands
    back a token the answer is 200 with that token's key.  When get-or-create
    raises, the exception leaves the view unchanged and no response is
    built.  An accepted request is answered 200 in every world the service
    can reach while the store answers, the key generator yielding each value
    once. *)
Theorem login_post_outcomes `{Collaborators} request w :
  match LoginSerializer (users w) (DATA request) with
  | Invalid errors =>
      Login.post request w
        = (Return (mkResponse (ErrorData errors) HTTP_400_BAD_REQUEST), w)
  | Valid u =>
      match get_or_create (pk u) w with
      | (Return (t, _), w1) =>
          Login.post request w
            = (Return (mkResponse (TokenData (key t)) HTTP_200_OK),
               established u w1)
      | (Raise e, w1) => Login.post request w = (Raise e, w1)
      end ∧
      (Inj (=) (=) generate_key → reachable w → db_error w = None →
       ∃ k, (Login.post request w).1
              = Return (mkResponse (TokenData k) HTTP_200_OK))
  end.
Proof.
  destruct (LoginSerializer (users w) (DATA request)) as [u|errors] eqn:Hser.
  - split.
    + rewrite Login_post_eq, Hser, Login_login_eq.
      by destruct (get_or_create (pk u) w) as [[[t c]|e] w1].
    + intros Hinj Hw Hdb.
      destruct (Login_post_succeeds request w u Hinj Hw Hdb Hser) as (k & w1 & ->).
      by exists k.
  - by rewrite Login_post_eq, Hser.
Qed.

Lemma login_post_outcomes_witness :
  ∃ k, (Login.post (H := Demo.fresh_keys) Demo.as_alice Demo.start).1
         = Return (mkResponse (TokenData k) HTTP_200_OK).
Proof.
  apply (proj2 (login_post_outcomes (H := Demo.fresh_keys)
                  Demo.as_alice Demo.start)).
  - exact fresh_keys_inj.
  - apply reachable_init. repeat split; reflexivity.
  - reflexivity.
Defined.

(** C7, as the claim has it, fails: with accepted credentials and the store
    failing, [POST /login] answers neither 200 nor 400; the store's
    exception comes out of the view. *)
Lemma login_post_store_failure :
  let w := set_db_error Demo.down Demo.start in
  is_valid (LoginSerializer (Collaborators := Demo.fresh_keys)
              (users w) (DATA Demo.as_alice)) = true ∧
  (Login.post (H := Demo.fresh_keys) Demo.as_alice w).1
    = Raise (StoreError "connection refused") ∧
  ¬ ∃ response,
      (Login.post (H := Demo.fresh_keys) Demo.as_alice w).1 = Return response.
Proof.
  repeat split. intros [response [=]].
Qed.

(** ** Logout *)

Lemma Logout_post_db_error request w :
  db_error (Logout.post request w).2 = db_error w.
Proof.
  rewrite Logout_post_eq. case_decide; [done|].
  simpl. apply delete_attempt_db_error.
Qed.

(** C4, as the views have it — [POST /logout] swallows whatever the
    deletion step does: the requesting user with or without a token, the
    token table answering or raising anything.  It answers 200 with the
    success message, and so does a second logout run right after, whenever
    the session termination returns; what the session termination raises
    comes out of the view, with nothing changed. *)
Theorem logout_fails_only_on_session_termination request w :
  ((auth_logout w).1 = Return tt →
   (Logout.post request w).1
     = Return (mkResponse (Message "success" "Successfully logged out.")
                          HTTP_200_OK) ∧
   (Logout.post request (Logout.post request w).2).1
     = Return (mkResponse (Message "success" "Successfully logged out.")
                          HTTP_200_OK)) ∧
  (∀ e, (auth_logout w).1 = Raise e → Logout.post request w = (Raise e, w)).
Proof.
  split.
  - intros Hup. rewrite auth_logout_eq in Hup.
    case_decide as Hdb; [done|].
    rewrite (Logout_post_up request w Hdb). split; [done|].
    rewrite Logout_post_up; [done|]. simpl.
    by rewrite delete_attempt_db_error.
  - intros e Hdown. rewrite auth_logout_eq in Hdown. rewrite Logout_post_eq.
    case_decide as Hdb; [|done]. by injection Hdown as <-.
Qed.

Lemma logout_fails_only_on_session_termination_witness :
  let w := set_db_error Demo.down
             (step (H := Demo.fresh_keys) (POST_login Demo.as_alice) Demo.start) in
  (Logout.post Demo.as_alice w).1
    = Return (mkResponse (Message "success" "Successfully logged out.")
                         HTTP_200_OK) ∧
  (Logout.post Demo.as_alice (Logout.post Demo.as_alice w).2).1
    = Return (mkResponse (Message "success" "Successfully logged out.")
                         HTTP_200_OK).
Proof.
  intros w.
  apply (proj1 (logout_fails_only_on_session_termination Demo.as_alice w)).
  reflexivity.
Defined.

(** C4, as the claim has it, fails: with the database out of reach the
    session termination raises outside the guarded deletion, so the logout
    ends in that exception, answers nothing and leaves the session
    registered. *)
Lemma logout_fails_when_database_unreachable :
  let w := set_db_error Demo.unreachable
             (step (H := Demo.fresh_keys) (POST_login Demo.as_alice) Demo.start) in
  (Logout.post Demo.as_alice w).1 = Raise OperationalError ∧
  session (Logout.post Demo.as_alice w).2 = Some 1 ∧
  ¬ ∃ response, (Logout.post Demo.as_alice w).1 = Return response.
Proof.
  repeat split. intros [response [=]].
Qed.

(** C9 — Whatever the deletion step of [Logout.post] does, return or raise,
    the session termination is run next, in the world the deletion left,
    and the response is built only after it: [Logout.post] is the session
    termination followed by the success response, run after the deletion.
    In particular, when the deletion raises (no token, anonymous user, a
    failing token table) the termination runs in the unchanged world.
    Whenever a response comes back it is the success response, the session
    is cleared and the termination is the latest event on record. *)
Theorem logout_always_runs_session_termination request w :
  let deletion : M unit := t ← auth_token (user request); Token_delete t in
  let respond : M Response :=
    auth_logout ;;
    ret (mkResponse (Message "success" "Successfully logged out.")
                    HTTP_200_OK) in
  Logout.post request w = respond (deletion w).2 ∧
  (∀ e, (deletion w).1 = Raise e → Logout.post request w = respond w) ∧
  (∀ response w',
     Logout.post request w = (Return response, w') →
     response = mkResponse (Message "success" "Successfully logged out.")
                           HTTP_200_OK ∧
     session w' = None ∧
     history w' = SessionTerminated :: history (deletion w).2).
Proof.
  intros deletion respond.
  assert ((deletion w).2 = delete_attempt request w ∧
          ∀ e, (deletion w).1 = Raise e → delete_attempt request w = w)
    as [Hdel Hraise].
  { unfold deletion, delete_attempt, auth_token. unfold_monad.
    destruct (user request) as [u|]; [|done].
    destruct (db_error w) as [e|] eqn:Hdb.
    - by rewrite (objects_get_down _ _ _ Hdb).
    - rewrite (objects_get_up _ _ Hdb).
      destruct (owned_by (pk u) (tokens w)) as [|t [|t' l]]; [done| |done].
      rewrite (Token_delete_up _ _ Hdb). split; [done|]. by intros e [=]. }
  assert (Logout.post request w = respond (delete_attempt request w)) as Hpost.
  { unfold Logout.post, respond.
    unfold mbind at 1, M_bind at 1, bind at 1.
    by rewrite guarded_deletion_eq. }
  split; [by rewrite Hdel|]. split.
  - intros e He. by rewrite Hpost, (Hraise e He).
  - intros response w'. rewrite Logout_post_eq, Hdel.
    case_decide; [done|]. by intros [= <- <-].
Qed.

Lemma logout_always_runs_session_termination_witness :
  let w := set_db_error Demo.down
             (step (H := Demo.fresh_keys) (POST_login Demo.as_alice) Demo.start) in
  Logout.post Demo.as_alice w
    = (auth_logout ;;
       ret (mkResponse (Message "success" "Successfully logged out.")
                       HTTP_200_OK)) w ∧
  (Logout.post Demo.as_alice w).1
    = Return (mkResponse (Message "success" "Successfully logged out.")
                         HTTP_200_OK) ∧
  session (Logout.post Demo.as_alice w).2 = None ∧
  history (Logout.post Demo.as_alice w).2 = SessionTerminated :: history w ∧
  tokens (Logout.post Demo.as_alice w).2 = tokens w.
Proof.
  intros w. split.
  - apply (proj1 (proj2 (logout_always_runs_session_termination
                           Demo.as_alice w))
             (StoreError "connection refused")).
    reflexivity.
  - repeat split.
Defined.

(** ** Password reset *)




(** The two runs of the witness differ in what they do: a mail goes out only
    where the account exists. *)
Example password_reset_mail_differs :
  history (PasswordReset.post (H := Demo.fresh_keys)
             Demo.reset_alice Demo.start).2
    = [ResetMail "alice@example.org"] ∧
  history (PasswordReset.post (H := Demo.fresh_keys)
             Demo.reset_alice Demo.nobody).2 = [].
Proof. split; reflexivity. Qed.

(** ** Token values over a run *)

Section value_facts.
Context `{Collaborators}.

Lemma effect_deleted_mono op w w' k :
  effect op w w' →
  TokenDeleted k ∈ history w → TokenDeleted k ∈ history w'.
Proof.
  intros [_ _ Hh|uid _ _ _ _ Hh|t _ _ _ _ _ Hh]; rewrite Hh; auto.
Qed.

Lemma run_deleted_mono ops w k :
  TokenDeleted k ∈ history w → TokenDeleted k ∈ history (run ops w).
Proof.
  revert w. induction ops as [|op ops IH]; intros w Hk; [done|].
  apply IH. eapply effect_deleted_mono; [apply step_effect|done].
Qed.

Lemma same_key_same_token w t1 t2 :
  store_consistent w →
  t1 ∈ tokens w → t2 ∈ tokens w → key t1 = key t2 → t1 = t2.
Proof.
  intros [Hnd _] Hin1 Hin2 Hkey.
  pose proof (with_key_unique t1 _ Hnd Hin1) as H1.
  pose proof (with_key_unique t2 _ Hnd Hin2) as H2.
  rewrite Hkey, H2 in H1. by injection H1.
Qed.
End value_facts.

(** C8, as the views have it — In every world the service can reach, two
    distinct identities never own tokens with the same value; and, provided
    the key generator yields each value once, a value on record as deleted
    is never in the table again, whatever requests follow. *)
Theorem token_values_unique `{Collaborators} w :
  reachable w →
  (∀ t1 t2, t1 ∈ tokens w → t2 ∈ tokens w →
            user_id t1 ≠ user_id t2 → key t1 ≠ key t2) ∧
  (Inj (=) (=) generate_key →
   ∀ k, TokenDeleted k ∈ history w →
        ∀ ops t, t ∈ tokens (run ops w) → key t ≠ k).
Proof.
  intros Hw. split.
  - intros t1 t2 Hin1 Hin2 Hne Hkey. apply Hne. f_equal.
    eapply same_key_same_token; [by apply reachable_consistent|done..].
  - intros Hinj k Hdel ops t Hin <-.
    apply (reachable_no_reuse (run ops w) Hinj (reachable_run ops w Hw) (key t)).
    + by apply run_deleted_mono.
    + by apply list_elem_of_fmap_2.
Qed.

Lemma token_values_unique_witness :
  let w := run (H := Demo.fresh_keys)
             [POST_login Demo.as_alice; POST_logout Demo.as_alice;
              POST_login Demo.as_bob] Demo.start in
  TokenDeleted "abc123" ∈ history w ∧
  ∀ ops t, t ∈ tokens (run (H := Demo.fresh_keys) ops w) → key t ≠ "abc123".
Proof.
  intros w.
  assert (reachable (H := Demo.fresh_keys) w) as Hw.
  { apply (reachable_run (H := Demo.fresh_keys)).
    apply reachable_init. repeat split; reflexivity. }
  assert (TokenDeleted "abc123" ∈ history w) as Hdel
    by (vm_compute; do 3 right; left).
  split; [exact Hdel|].
  exact (proj2 (token_values_unique (H := Demo.fresh_keys) w Hw)
           fresh_keys_inj "abc123" Hdel).
Defined.

(** C8, as the claim has it, fails: the views keep no record of deleted
    values, and a generator that repeats itself hands the value of alice's
    deleted token to the next identity. *)
Lemma repeated_draw_reuses_value :
  let w := run (H := Demo.repeating_keys)
             [POST_login Demo.as_alice; POST_logout Demo.as_alice;
              POST_login Demo.as_bob] Demo.start in
  TokenDeleted "abc123" ∈ history w ∧ tokens w = [mkToken "abc123" 2].
Proof.
  split; [|reflexivity]. vm_compute. do 3 right. left.
Qed.

(** ** Resolving a token over a run *)

Section resolve_facts.
Context `{Collaborators}.

Lemma resolve_present k uid u w :
  db_error w = None → store_consistent w →
  mkToken k uid ∈ tokens w →
  get_user (users w) uid = Some u → is_active u = true →
  resolve k w = (Return u, w).
Proof.
  intros Hdb [Hnd _] Hin Hu Hact. unfold resolve, db_execute. unfold_monad.
  pose proof (with_key_unique (mkToken k uid) _ Hnd Hin) as Hrows.
  simpl in Hrows. rewrite Hdb, Hrows. simpl. by rewrite Hu, Hact.
Qed.

Lemma resolve_absent k w :
  db_error w = None → k ∉ key <$> tokens w →
  resolve k w = (Raise InvalidToken, w).
Proof.
  intros Hdb Hk. unfold resolve, db_execute. unfold_monad.
  by rewrite Hdb, (with_key_absent _ _ Hk).
Qed.

Lemma step_keeps_token k uid op w :
  store_consistent w →
  mkToken k uid ∈ tokens w →
  ¬ is_logout_of uid op ∨ db_error w ≠ None →
  mkToken k uid ∈ tokens (step op w).
Proof.
  intros Hc Hin Hkeep.
  destruct (step_effect op w) as [Ht _ _|uid' _ _ Ht _ _|t Hop Hdb Hrows Ht _ _];
    rewrite Ht.
  - done.
  - by apply list_elem_of_further.
  - apply list_elem_of_filter. split; [|done]. simpl. intros Hkey.
    assert (t ∈ tokens w) as Hint.
    { assert (t ∈ owned_by (user_id t) (tokens w)) as Hin'
        by (rewrite Hrows; apply list_elem_of_here).
      by apply list_elem_of_filter in Hin' as [_ ?]. }
    assert (mkToken k uid = t) as <-
      by (by apply (same_key_same_token w)).
    destruct Hkeep as [Hno|Hdown]; [by apply Hno|by apply Hdown].
Qed.

Lemma run_keeps_token k uid ops w :
  reachable w →
  mkToken k uid ∈ tokens w →
  unrevoked uid ops w →
  mkToken k uid ∈ tokens (run ops w).
Proof.
  revert w. induction ops as [|op ops IH]; intros w Hw Hin Hops; [done|].
  destruct Hops as [Hkeep Hops]. apply IH; [by apply reachable_step| |done].
  apply step_keeps_token; [by apply reachable_consistent|done..].
Qed.

(** A token once in the table is there or on record as deleted. *)
Lemma step_token_or_deleted t op w :
  store_consistent w →
  t ∈ tokens w ∨ TokenDeleted (key t) ∈ history w →
  t ∈ tokens (step op w) ∨ TokenDeleted (key t) ∈ history (step op w).
Proof.
  intros Hc [Hin|Hdel].
  - destruct (step_effect op w) as [Ht _ _|uid' _ _ Ht _ _|t' _ _ _ Ht _ Hh].
    + left. by rewrite Ht.
    + left. rewrite Ht. by apply list_elem_of_further.
    + destruct (decide (key t = key t')) as [Heq|Hne].
      * right. apply Hh. by left.
      * left. rewrite Ht. by apply list_elem_of_filter.
  - right. eapply effect_deleted_mono; [apply step_effect|done].
Qed.

Lemma run_token_or_deleted t ops w :
  reachable w →
  t ∈ tokens w ∨ TokenDeleted (key t) ∈ history w →
  t ∈ tokens (run ops w) ∨ TokenDeleted (key t) ∈ history (run ops w).
Proof.
  revert w. induction ops as [|op ops IH]; intros w Hw Ht; [done|].
  apply IH; [by apply reachable_step|].
  apply step_token_or_deleted; [by apply reachable_consistent|done].
Qed.

(** A logout served while the store answers puts the user's token on
    record as deleted. *)
Lemma logout_deletes k uid request w :
  store_consistent w → db_error w = None →
  is_logout_of uid (POST_logout request) →
  mkToken k uid ∈ tokens w →
  TokenDeleted k ∈ history (step (POST_logout request) w).
Proof.
  intros [_ Hnd] Hdb Hop Hin. simpl in *.
  rewrite Logout_post_eq. unfold delete_attempt.
  destruct (user request) as [u|]; [|done]. subst uid.
  pose proof (owned_by_unique (mkToken k (pk u)) _ Hnd Hin) as Hrows.
  simpl in Hrows. rewrite Hdb, Hrows. simpl.
  apply list_elem_of_further, list_elem_of_here.
Qed.

Lemma Login_post_issues request w k w1 :
  Login.post request w = (Return (mkResponse (TokenData k) HTTP_200_OK), w1) →
  ∀ u, LoginSerializer (users w) (DATA request) = Valid u →
       mkToken k (pk u) ∈ tokens w1.
Proof.
  intros Hpost u Hser.
  destruct (Login_post_Return _ _ _ _ Hpost) as (u' & t & c & w0 & Hser' & Hgoc & Hk & ->).
  rewrite Hser in Hser'. injection Hser' as <-.
  destruct (get_or_create_Return _ _ _ _ _ Hgoc) as (_ & Hrows & Hown).
  destruct (established_fields u w0) as (-> & _).
  assert (t ∈ owned_by (pk u) (tokens w0)) as Hin
    by (rewrite Hrows; apply list_elem_of_here).
  apply list_elem_of_filter in Hin as [_ Hin].
  destruct t as [k' uid']. simpl in *. by subst.
Qed.
End resolve_facts.

(** C3, as the views have it — Let [POST /login] answer 200 with value [k]
    for an active identity [I] of the user table.  At every later point
    where the store answers, [resolve k] returns [I] as long as no logout of
    [I] was served while the store was answering; a logout whose deletion
    failed does not count.  After a logout of [I] served while the store
    answers, [resolve k] raises [InvalidToken] at every later point where
    the store answers, the key generator yielding each value once. *)
Theorem resolve_until_revoked `{Collaborators} request w k w1 I :
  reachable w →
  Login.post request w = (Return (mkResponse (TokenData k) HTTP_200_OK), w1) →
  LoginSerializer (users w) (DATA request) = Valid I →
  get_user (users w) (pk I) = Some I →
  is_active I = true →
  (∀ ops, unrevoked (pk I) ops w1 →
          db_error (run ops w1) = None →
          (resolve k (run ops w1)).1 = Return I) ∧
  (Inj (=) (=) generate_key →
   ∀ ops1 request' ops2,
     is_logout_of (pk I) (POST_logout request') →
     db_error (run ops1 w1) = None →
     db_error (run ops2 (step (POST_logout request') (run ops1 w1))) = None →
     (resolve k (run ops2 (step (POST_logout request') (run ops1 w1)))).1
       = Raise InvalidToken).
Proof.
  intros Hw Hpost Hser Huser Hact.
  assert (reachable w1) as Hw1.
  { replace w1 with (step (POST_login request) w) by (by simpl; rewrite Hpost).
    by apply reachable_step. }
  assert (users w1 = users w) as Hus.
  { replace w1 with (step (POST_login request) w) by (by simpl; rewrite Hpost).
    apply step_users. }
  pose proof (Login_post_issues _ _ _ _ Hpost I Hser) as Hin.
  split.
  - intros ops Hops Hdb.
    rewrite (resolve_present k (pk I) I); [done|done| | | |done].
    + by apply reachable_consistent, reachable_run.
    + by apply run_keeps_token.
    + by rewrite run_users, Hus.
  - intros Hinj ops1 request' ops2 Hop Hdb1 Hdb2.
    set (w' := run ops1 w1) in *.
    assert (reachable w') as Hw' by (by apply reachable_run).
    assert (TokenDeleted k ∈ history (step (POST_logout request') w')) as Hdel.
    { destruct (run_token_or_deleted (mkToken k (pk I)) ops1 w1 Hw1) as [Hin'|Hdel];
        [by left| |].
      - eapply logout_deletes; [by apply reachable_consistent|done..].
      - eapply effect_deleted_mono; [apply step_effect|done]. }
    rewrite resolve_absent; [done|done|].
    apply (reachable_no_reuse _ Hinj).
    + by apply reachable_run, reachable_step.
    + by apply run_deleted_mono.
Qed.

Lemma resolve_until_revoked_witness :
  let w1 := step (H := Demo.fresh_keys) (POST_login Demo.as_alice) Demo.start in
  (resolve "abc123"
     (run (H := Demo.fresh_keys)
        [POST_login Demo.as_bob; StoreFault Demo.down;
         POST_logout Demo.as_alice; StoreFault None] w1)).1
    = Return Demo.alice ∧
  (resolve "abc123"
     (run (H := Demo.fresh_keys) [POST_login Demo.as_alice]
        (step (H := Demo.fresh_keys) (POST_logout Demo.as_alice)
           (run (H := Demo.fresh_keys) [POST_login Demo.as_bob] w1)))).1
    = Raise InvalidToken.
Proof.
  intros w1.
  destruct (resolve_until_revoked (H := Demo.fresh_keys)
              Demo.as_alice Demo.start "abc123" w1 Demo.alice)
    as [Huntil Hafter].
  - apply reachable_init. repeat split; reflexivity.
  - reflexivity.
  - reflexivity.
  - reflexivity.
  - reflexivity.
  - split.
    + apply Huntil; [|reflexivity].
      repeat split; first [left; by intros []|right; discriminate].
    + apply (Hafter fresh_keys_inj [POST_login Demo.as_bob] Demo.as_alice
               [POST_login Demo.as_alice]); reflexivity.
Defined.

(** C3, as the claim has it, fails: a logout served while the store is
    failing answers 200 and leaves the token row in place, so the token
    resolves to its owner after the revocation. *)
Lemma revoke_with_failing_store_keeps_token :
  let w1 := step (H := Demo.fresh_keys) (POST_login Demo.as_alice) Demo.start in
  let w2 := step (H := Demo.fresh_keys) (POST_logout Demo.as_alice)
              (set_db_error Demo.down w1) in
  Login.post (H := Demo.fresh_keys) Demo.as_alice Demo.start
    = (Return (mkResponse (TokenData "abc123") HTTP_200_OK), w1) ∧
  (Logout.post Demo.as_alice (set_db_error Demo.down w1)).1
    = Return (mkResponse (Message "success" "Successfully logged out.")
                         HTTP_200_OK) ∧
  (resolve "abc123" (set_db_error None w2)).1 = Return Demo.alice ∧
  (resolve "abc123" (set_db_error None w2)).1 ≠ Raise InvalidToken.
Proof.
  repeat split. discriminate.
Qed.

(** * Further properties of the views *)

Section more_facts.
Context `{Collaborators}.

(** [Login.post], outcome by outcome. *)
Lemma Login_post_cases request w :
  (∃ errors,
     LoginSerializer (users w) (DATA request) = Invalid errors ∧
     Login.post request w
       = (Return (mkResponse (ErrorData errors) HTTP_400_BAD_REQUEST), w)) ∨
  (∃ u t,
     LoginSerializer (users w) (DATA request) = Valid u ∧
     db_error w = None ∧ owned_by (pk u) (tokens w) = [t] ∧
     Login.post request w
       = (Return (mkResponse (TokenData (key t)) HTTP_200_OK),
          established u w)) ∨
  (∃ u,
     LoginSerializer (users w) (DATA request) = Valid u ∧
     db_error w = None ∧ owned_by (pk u) (tokens w) = [] ∧
     (generate_key (draws w) ∉ key <$> tokens w) ∧
     Login.post request w
       = (Return (mkResponse (TokenData (generate_key (draws w))) HTTP_200_OK),
          established u
            (with_event (TokenCreated (generate_key (draws w)) (pk u))
               (with_tokens
                  (mkToken (generate_key (draws w)) (pk u) :: tokens w)
                  (with_draws (S (draws w)) w))))) ∨
  (∃ u e w',
     LoginSerializer (users w) (DATA request) = Valid u ∧
     (w' = w ∨ w' = with_draws (S (draws w)) w) ∧
     Login.post request w = (Raise e, w')).
Proof.
  rewrite Login_post_eq.
  destruct (LoginSerializer (users w) (DATA request)) as [u|errors];
    [|by left; exists errors].
  right. rewrite Login_login_eq.
  pose proof (get_or_create_spec (pk u) w) as Hg.
  destruct (get_or_create (pk u) w) as [[[t c]|e] w1].
  - inversion Hg; subst.
    + left. by exists u, t.
    + right. left. by exists u.
  - right. right. inversion Hg; subst. by exists u, e, w1.
Qed.

Lemma established_session u w :
  session (established u w) = session w ∨
  (getattr (settings w) "REST_SESSION_LOGIN" true = true ∧
   session (established u w) = Some (pk u)).
Proof.
  unfold established.
  destruct (getattr (settings w) "REST_SESSION_LOGIN" true); [by right|by left].
Qed.

Lemma established_history u w :
  history (established u w) = history w ∨
  history (established u w) = SessionEstablished (pk u) :: history w.
Proof.
  unfold established.
  destruct (getattr (settings w) "REST_SESSION_LOGIN" true); [by right|by left].
Qed.

Lemma owned_by_filter uid (P : Token → Prop) `{∀ t, Decision (P t)} ts :
  owned_by uid (filter P ts) = filter P (owned_by uid ts).
Proof.
  unfold owned_by. induction ts as [|t ts IH]; [done|].
  rewrite !filter_cons.
  destruct (decide (P t)), (decide (user_id t = uid));
    rewrite ?filter_cons_True, ?filter_cons_False by done; by rewrite ?IH.
Qed.

Lemma owned_by_after_delete uid t (ts : list Token) :
  owned_by uid ts = [t] →
  owned_by uid (filter (λ t', key t' ≠ key t) ts) = [].
Proof.
  intros Hrows. rewrite owned_by_filter, Hrows.
  by rewrite filter_cons_False by (simpl; tauto).
Qed.

Lemma filter_fresh_key k (ts : list Token) :
  k ∉ key <$> ts → filter (λ t', key t' ≠ k) ts = ts.
Proof.
  induction ts as [|t ts IH]; [done|].
  rewrite fmap_cons, not_elem_of_cons. intros [Hne Hk].
  rewrite filter_cons_True by (simpl; congruence). by rewrite IH.
Qed.

Lemma resolve_ext k w w' :
  db_error w' = db_error w → tokens w' = tokens w → users w' = users w →
  (resolve k w').1 = (resolve k w).1.
Proof.
  intros Hdb Ht Hu. unfold resolve, db_execute. unfold_monad.
  rewrite Hdb. destruct (db_error w); [done|]. rewrite Ht.
  destruct (with_key k (tokens w)) as [|t [|t' l]]; [done| |done].
  rewrite Hu. destruct (get_user (users w) (user_id t)) as [u|]; [|done].
  by destruct (is_active u).
Qed.
End more_facts.

(** X1 — A token row appears only through a login with accepted
    credentials: whenever a step puts a row in the table that was not there
    before, the step is a [POST /login] whose serializer validated, the row
    belongs to the user the serializer authenticated, and the response is
    200 with the row's key.  No logout, password reset or store fault ever
    adds a row. *)
Theorem token_issued_only_by_login `{Collaborators} op w t :
  t ∈ tokens (step op w) → t ∉ tokens w →
  ∃ request u,
    op = POST_login request ∧
    LoginSerializer (users w) (DATA request) = Valid u ∧
    user_id t = pk u ∧
    (Login.post request w).1
      = Return (mkResponse (TokenData (key t)) HTTP_200_OK).
Proof.
  intros Hin Hnew. destruct op as [request|request|request|e]; simpl in Hin.
  - destruct (Login_post_cases request w)
      as [(errors & _ & Hpost)|[(u & t0 & _ & _ & _ & Hpost)
          |[(u & Hser & _ & _ & _ & Hpost)|(u & e & w' & _ & Hw' & Hpost)]]];
      rewrite Hpost in Hin; simpl in Hin.
    + done.
    + destruct (established_fields u w) as (Ht & _). by rewrite Ht in Hin.
    + destruct (established_fields u
                  (with_event (TokenCreated (generate_key (draws w)) (pk u))
                     (with_tokens
                        (mkToken (generate_key (draws w)) (pk u) :: tokens w)
                        (with_draws (S (draws w)) w)))) as (Ht & _).
      rewrite Ht in Hin. simpl in Hin.
      apply elem_of_cons in Hin as [->|Hin]; [|done].
      exists request, u. by rewrite Hpost.
    + by destruct Hw' as [->| ->].
  - rewrite Logout_post_eq in Hin. case_decide; [done|].
    simpl in Hin. unfold delete_attempt in Hin.
    destruct (user request), (db_error w); try done.
    destruct (owned_by _ _) as [|t0 [|t1 l]]; try done.
    simpl in Hin. by apply list_elem_of_filter in Hin as [_ Hin].
  - destruct (PasswordReset_post_frame request w) as (Ht & _).
    by rewrite Ht in Hin.
  - done.
Qed.

Lemma token_issued_only_by_login_witness :
  ∃ request u,
    POST_login Demo.as_alice = POST_login request ∧
    Demo.check_login (users Demo.start) (DATA request) = Valid u ∧
    user_id (mkToken "abc123" 1) = pk u ∧
    (Login.post (H := Demo.fresh_keys) request Demo.start).1
      = Return (mkResponse (TokenData "abc123") HTTP_200_OK).
Proof.
  apply (token_issued_only_by_login (H := Demo.fresh_keys)
           (POST_login Demo.as_alice) Demo.start (mkToken "abc123" 1)).
  - vm_compute. left.
  - apply not_elem_of_nil.
Defined.

(** X2 — A token row disappears only through a logout of its owner: in
    every world the service can reach, whenever a step removes a row, the
    step is a [POST /logout] made by the user the row belongs to, served
    while the store answers.  Logging in, asking for a password reset, or
    another user's logout never removes it. *)
Theorem token_removed_only_by_owner_logout `{Collaborators} op w t :
  reachable w →
  t ∈ tokens w → t ∉ tokens (step op w) →
  ∃ request u,
    op = POST_logout request ∧ user request = Some u ∧
    pk u = user_id t ∧ db_error w = None.
Proof.
  intros Hw Hin Hgone.
  destruct (step_effect op w) as [Ht _ _|uid _ _ Ht _ _|t' Hop Hdb Hrows Ht _ _];
    rewrite Ht in Hgone.
  - done.
  - exfalso. apply Hgone. by apply list_elem_of_further.
  - assert (t' ∈ tokens w) as Hin'.
    { assert (t' ∈ owned_by (user_id t') (tokens w)) as Hin'
        by (rewrite Hrows; apply list_elem_of_here).
      by apply list_elem_of_filter in Hin' as [_ ?]. }
    assert (t = t') as ->.
    { destruct (decide (key t = key t')) as [Hkey|Hkey].
      - eapply same_key_same_token; [by apply reachable_consistent|done..].
      - exfalso. apply Hgone. by apply list_elem_of_filter. }
    destruct op as [|request| |]; try done. simpl in Hop.
    destruct (user request) as [u|] eqn:Hu; [|done].
    by exists request, u.
Qed.

Lemma token_removed_only_by_owner_logout_witness :
  let w := step (H := Demo.fresh_keys) (POST_login Demo.as_alice) Demo.start in
  ∃ request u,
    POST_logout Demo.as_alice = POST_logout request ∧
    user request = Some u ∧
    pk u = user_id (mkToken "abc123" 1) ∧ db_error w = None.
Proof.
  intros w.
  apply (token_removed_only_by_owner_logout (H := Demo.fresh_keys)
           (POST_logout Demo.as_alice) w (mkToken "abc123" 1)).
  - apply reachable_step, reachable_init. repeat split; reflexivity.
  - vm_compute. left.
  - vm_compute. apply not_elem_of_nil.
Defined.

(** X3 — A session is established only for accepted credentials: whenever
    a step leaves the session registered to a user it was not registered to
    before, the step is a [POST /login] whose serializer validated that very
    user, answered 200, with [REST_SESSION_LOGIN] reading true. *)
Theorem session_only_for_validated_user `{Collaborators} op w uid :
  session (step op w) = Some uid → session w ≠ Some uid →
  ∃ request u k,
    op = POST_login request ∧
    LoginSerializer (users w) (DATA request) = Valid u ∧ pk u = uid ∧
    getattr (settings w) "REST_SESSION_LOGIN" true = true ∧
    (Login.post request w).1
      = Return (mkResponse (TokenData k) HTTP_200_OK).
Proof.
  intros Hs Hnew. destruct op as [request|request|request|e]; simpl in Hs.
  - destruct (Login_post_cases request w)
      as [(errors & _ & Hpost)|[(u & t0 & Hser & _ & _ & Hpost)
          |[(u & Hser & _ & _ & _ & Hpost)|(u & e & w' & _ & Hw' & Hpost)]]];
      rewrite Hpost in Hs; simpl in Hs.
    + done.
    + destruct (established_session u w) as [Hsame|[Hflag Hset]].
      * by rewrite Hsame in Hs.
      * rewrite Hset in Hs. injection Hs as Hs.
        exists request, u, (key t0). by rewrite Hpost.
    + match type of Hs with
      | session (established u ?w1) = _ =>
          destruct (established_session u w1) as [Hsame|[Hflag Hset]]
      end.
      * by rewrite Hsame in Hs.
      * rewrite Hset in Hs. injection Hs as Hs.
        exists request, u, (generate_key (draws w)). by rewrite Hpost.
    + by destruct Hw' as [->| ->].
  - rewrite Logout_post_eq in Hs. by case_decide.
  - destruct (PasswordReset_post_frame request w) as (_ & _ & _ & _ & _ & Hse & _).
    by rewrite Hse in Hs.
  - done.
Qed.

Lemma session_only_for_validated_user_witness :
  ∃ request u k,
    POST_login Demo.as_alice = POST_login request ∧
    Demo.check_login (users Demo.start) (DATA request) = Valid u ∧ pk u = 1 ∧
    getattr (settings Demo.start) "REST_SESSION_LOGIN" true = true ∧
    (Login.post (H := Demo.fresh_keys) request Demo.start).1
      = Return (mkResponse (TokenData k) HTTP_200_OK).
Proof.
  apply (session_only_for_validated_user (H := Demo.fresh_keys)
           (POST_login Demo.as_alice) Demo.start 1).
  - reflexivity.
  - discriminate.
Defined.

(** X4 — Logging out twice is the same as logging out once: in every
    world, whatever the store does, a second [POST /logout] by the same
    requester removes no further row of the token table and ends the way
    the first one did. *)
Theorem logout_twice_same_table request w :
  tokens (Logout.post request (Logout.post request w).2).2
    = tokens (Logout.post request w).2 ∧
  (Logout.post request (Logout.post request w).2).1
    = (Logout.post request w).1.
Proof.
  rewrite (Logout_post_eq request (Logout.post request w).2).
  rewrite Logout_post_db_error, Logout_post_eq.
  case_decide as Hdown; [done|]. simpl. split; [|done].
  unfold delete_attempt at 1. simpl.
  destruct (user request) as [u|] eqn:Hu; [|done].
  unfold delete_attempt. rewrite Hu.
  destruct (db_error w) as [e|] eqn:Hdb; simpl.
  - by rewrite Hdb.
  - destruct (owned_by (pk u) (tokens w)) as [|t [|t' l]] eqn:Hrows; simpl.
    + by rewrite Hdb, Hrows.
    + by rewrite Hdb, (owned_by_after_delete _ _ _ Hrows).
    + by rewrite Hdb, Hrows.
Qed.

(** X5 — A login that ends in an exception has changed nothing but,
    possibly, the draw counter: no token row is added or removed, no session
    is established and nothing is recorded, because the session login comes
    after get-or-create. *)
Theorem login_exception_changes_nothing `{Collaborators} request w e w' :
  Login.post request w = (Raise e, w') →
  tokens w' = tokens w ∧ session w' = session w ∧
  history w' = history w ∧ users w' = users w ∧
  (draws w' = draws w ∨ draws w' = S (draws w)).
Proof.
  intros Hpost.
  destruct (Login_post_cases request w)
    as [(errors & _ & Hpost')|[(u & t0 & _ & _ & _ & Hpost')
        |[(u & _ & _ & _ & _ & Hpost')|(u & e' & w1 & _ & Hw1 & Hpost')]]];
    rewrite Hpost' in Hpost; try done.
  injection Hpost as _ <-. destruct Hw1 as [->| ->]; simpl; auto 10.
Qed.

Lemma login_exception_changes_nothing_witness :
  let w := set_db_error Demo.down Demo.start in
  let w' := (Login.post (H := Demo.fresh_keys) Demo.as_alice w).2 in
  tokens w' = tokens w ∧ session w' = session w ∧
  history w' = history w ∧ users w' = users w ∧
  (draws w' = draws w ∨ draws w' = S (draws w)).
Proof.
  intros w w'.
  apply (login_exception_changes_nothing (H := Demo.fresh_keys)
           Demo.as_alice w (StoreError "connection refused") w').
  reflexivity.
Defined.

(** X6 — Login followed by logout is a round trip on the token table: when
    a user without a token logs in and is answered 200, a logout by that
    user in the world the login left puts the table back exactly as it was
    before the login, and the session is cleared. *)
Theorem login_logout_round_trip `{Collaborators} request request' w k w1 u u' :
  LoginSerializer (users w) (DATA request) = Valid u →
  owned_by (pk u) (tokens w) = [] →
  Login.post request w
    = (Return (mkResponse (TokenData k) HTTP_200_OK), w1) →
  user request' = Some u' → pk u' = pk u →
  tokens (Logout.post request' w1).2 = tokens w ∧
  session (Logout.post request' w1).2 = None.
Proof.
  intros Hser Hnone Hpost Hu' Hpk.
  destruct (Login_post_cases request w)
    as [(errors & Hser' & _)|[(u0 & t0 & Hser' & _ & Hrows & _)
        |[(u0 & Hser' & Hdb & _ & Hfresh & Hpost')
         |(u0 & e' & w' & Hser' & _ & Hpost')]]];
    rewrite Hser in Hser'; try done.
  - injection Hser' as <-. by rewrite Hnone in Hrows.
  - injection Hser' as <-. rewrite Hpost' in Hpost. injection Hpost as <- <-.
    match goal with
    | |- context [established u ?w0] =>
        destruct (established_fields u w0) as (Ht & _ & _ & _ & Hdb' & _)
    end.
    simpl in Hdb'. rewrite Hdb in Hdb'.
    rewrite Logout_post_up by (by rewrite Hdb'). simpl. split; [|done].
    unfold delete_attempt. rewrite Hu', Hpk.
    rewrite Hdb', Ht. simpl.
    rewrite (owned_by_cons_fresh _ _ _ Hnone). simpl.
    rewrite filter_cons_False by (simpl; tauto).
    by apply filter_fresh_key.
  - by rewrite Hpost' in Hpost.
Qed.

Lemma login_logout_round_trip_witness :
  let w1 := step (H := Demo.fresh_keys) (POST_login Demo.as_alice) Demo.start in
  tokens (Logout.post Demo.as_alice w1).2 = tokens Demo.start ∧
  session (Logout.post Demo.as_alice w1).2 = None.
Proof.
  intros w1.
  apply (login_logout_round_trip (H := Demo.fresh_keys)
           Demo.as_alice Demo.as_alice Demo.start "abc123" w1
           Demo.alice Demo.alice); reflexivity.
Defined.

(** X7 — A logout served while the store answers leaves the requesting
    user without any token row, in every world the service can reach. *)
Theorem logout_leaves_no_token `{Collaborators} request w u :
  reachable w → db_error w = None → user request = Some u →
  owned_by (pk u) (tokens (Logout.post request w).2) = [].
Proof.
  intros Hw Hdb Hu. rewrite Logout_post_up by (by rewrite Hdb). simpl.
  unfold delete_attempt. rewrite Hu, Hdb.
  destruct (reachable_consistent w Hw) as [_ Hnd].
  pose proof (owned_by_at_most_one (pk u) (tokens w) Hnd) as Hlen.
  destruct (owned_by (pk u) (tokens w)) as [|t [|t' l]] eqn:Hrows.
  - done.
  - simpl. by apply owned_by_after_delete.
  - simpl in Hlen. lia.
Qed.

Lemma logout_leaves_no_token_witness :
  let w := run (H := Demo.fresh_keys)
             [POST_login Demo.as_alice; POST_login Demo.as_bob] Demo.start in
  owned_by (pk Demo.alice) (tokens (Logout.post Demo.as_alice w).2) = [].
Proof.
  intros w.
  apply (logout_leaves_no_token (H := Demo.fresh_keys) Demo.as_alice w Demo.alice).
  - apply (reachable_run (H := Demo.fresh_keys)).
    apply reachable_init. repeat split; reflexivity.
  - reflexivity.
  - reflexivity.
Defined.

(** X8 — Logging out and in again changes the token: in every world the
    service can reach, with a key generator that yields each value once,
    when a login answered 200 with value [k], a logout by that user
    followed by a login with the same credentials is answered 200 with a
    value different from [k]. *)
Theorem relogin_mints_new_value `{Collaborators}
    request request' w k w1 u u' :
  Inj (=) (=) generate_key → reachable w →
  LoginSerializer (users w) (DATA request) = Valid u →
  Login.post request w
    = (Return (mkResponse (TokenData k) HTTP_200_OK), w1) →
  user request' = Some u' → pk u' = pk u →
  ∃ k' w3,
    Login.post request (Logout.post request' w1).2
      = (Return (mkResponse (TokenData k') HTTP_200_OK), w3) ∧
    k' ≠ k.
Proof.
  intros Hinj Hw Hser Hpost Hu' Hpk.
  assert (w1 = step (POST_login request) w) as Hw1eq by (by simpl; rewrite Hpost).
  assert (reachable w1) as Hw1 by (rewrite Hw1eq; by apply reachable_step).
  assert (db_error w1 = None) as Hdb1.
  { destruct (Login_post_Return _ _ _ _ Hpost)
      as (u0 & t & c & w0 & _ & Hgoc & _ & ->).
    destruct (get_or_create_Return _ _ _ _ _ Hgoc) as (Hdb & _).
    destruct (established_fields u0 w0) as (_ & _ & _ & _ & Hdb' & _).
    by rewrite Hdb'. }
  set (w2 := (Logout.post request' w1).2).
  assert (w2 = step (POST_logout request') w1) as Hw2eq by done.
  assert (reachable w2) as Hw2 by (rewrite Hw2eq; by apply reachable_step).
  assert (db_error w2 = None) as Hdb2
    by (unfold w2; by rewrite Logout_post_db_error).
  assert (users w2 = users w) as Hus
    by (by rewrite Hw2eq, step_users, Hw1eq, step_users).
  assert (LoginSerializer (users w2) (DATA request) = Valid u) as Hser2
    by (by rewrite Hus).
  destruct (Login_post_succeeds request w2 u Hinj Hw2 Hdb2 Hser2)
    as (k' & w3 & Hpost2).
  exists k', w3. split; [done|]. intros ->.
  pose proof (Login_post_issues _ _ _ _ Hpost u Hser) as Hin1.
  pose proof (Login_post_issues _ _ _ _ Hpost2 u Hser2) as Hin3.
  assert (TokenDeleted k ∈ history w2) as Hdel.
  { rewrite Hw2eq. eapply logout_deletes;
      [by apply reachable_consistent|done| |done].
    simpl. by rewrite Hu'. }
  assert (w3 = step (POST_login request) w2) as Hw3eq
    by (by simpl; rewrite Hpost2).
  assert (reachable w3) as Hw3 by (rewrite Hw3eq; by apply reachable_step).
  apply (reachable_no_reuse w3 Hinj Hw3 k).
  - rewrite Hw3eq. eapply effect_deleted_mono; [apply step_effect|done].
  - by apply (list_elem_of_fmap_2 key) in Hin3.
Qed.

Lemma relogin_mints_new_value_witness :
  let w1 := step (H := Demo.fresh_keys) (POST_login Demo.as_alice) Demo.start in
  ∃ k' w3,
    Login.post (H := Demo.fresh_keys) Demo.as_alice
        (Logout.post Demo.as_alice w1).2
      = (Return (mkResponse (TokenData k') HTTP_200_OK), w3) ∧
    k' ≠ "abc123".
Proof.
  intros w1.
  apply (relogin_mints_new_value (H := Demo.fresh_keys)
           Demo.as_alice Demo.as_alice Demo.start "abc123" w1
           Demo.alice Demo.alice).
  - exact fresh_keys_inj.
  - apply reachable_init. repeat split; reflexivity.
  - reflexivity.
  - reflexivity.
  - reflexivity.
  - reflexivity.
Defined.
